(** * bbb-scrape: timeline reconstruction and frame-synthesis pipeline

    A shallow embedding of [bbbscrape/main.py] (class [Scrape]) and the
    properties of its asset resolver, timeline extractor, frame synthesizer
    and manifest builder.

    Conventions of the embedding:
    - a Python [float] is a binary64 number: [PrimFloat.float], compared with
      the IEEE comparisons [<?], [<=?] and [=?] that Python's [<], [<=] and
      [==] compute;
    - an [xml.etree.ElementTree.Element] is a tag, an attribute dictionary
      ([gmap string string]) and the ordered list of its children; text and
      tail, which the program never reads, are left out;
    - a Python exception is a value of [exn]; code that may raise returns a
      [result];
    - the builtins [float()] and [str()] on floats and the HTTP client
      [requests.get] are parameters of the development. *)

From Stdlib Require Import ZArith Ascii String Floats Sorted Permutation Lia.

From stdpp Require Import base option list sorting strings pretty gmap.

Set Default Proof Using "Type".

Local Set Warnings "-register-all".

Open Scope string_scope.

Open Scope list_scope.


(** ** Exceptions and results *)

Inductive exn : Type :=
| KeyError (key : string)
| ValueError (msg : string)
| AssertionError
| IndexError
| ConnectionError.

Inductive result (A : Type) : Type :=
| Ok (a : A)
| Raise (e : exn).

Arguments Ok {A} a.

Arguments Raise {A} e.

(** The error monad, with stdpp's notation [x ← r; k]. *)
#[export] Instance result_ret : MRet result := fun A a => Ok a.

#[export] Instance result_bind : MBind result := fun A B k r =>
  match r with
  | Ok a => k a
  | Raise e => Raise e
  end.

Definition raises {A : Type} (r : result A) : Prop :=
  exists e, r = Raise e.


(** ** Strings and lists as Python has them *)

(** [os.path.basename(p)]: what follows the last slash. *)
Fixpoint basename_from (cur s : string) : string :=
  match s with
  | EmptyString => cur
  | String c s' =>
      if Ascii.eqb c "/"%char then basename_from EmptyString s'
      else basename_from (cur +:+ String c EmptyString) s'
  end.

Definition basename (s : string) : string := basename_from EmptyString s.

(** [s.split(sep)] for a one-character separator: every separator cuts, and
    empty pieces are kept, so the result is never empty. *)
Fixpoint split_from (sep : Ascii.ascii) (cur s : string) : list string :=
  match s with
  | EmptyString => [cur]
  | String c s' =>
      if Ascii.eqb c sep then cur :: split_from sep EmptyString s'
      else split_from sep (cur +:+ String c EmptyString) s'
  end.

Definition split (sep : Ascii.ascii) (s : string) : list string :=
  split_from sep EmptyString s.

(** [sep.join(l)]. *)
Fixpoint join (sep : string) (l : list string) : string :=
  match l with
  | [] => EmptyString
  | [x] => x
  | x :: l' => x +:+ sep +:+ join sep l'
  end.

(** [l.remove(x)]: drops the first occurrence, [ValueError] when there is
    none. *)
Fixpoint list_remove (x : string) (l : list string) : result (list string) :=
  match l with
  | [] => Raise (ValueError "list.remove(x): x not in list")
  | y :: l' =>
      if decide (y = x) then Ok l'
      else l'' ← list_remove x l'; Ok (y :: l'')
  end.


(** ** Timestamps: Python floats *)

(** [x != x], true of NaN only. *)
Definition is_nan (x : float) : bool := negb (PrimFloat.eqb x x).

(** [list(dict.fromkeys(l))]: the first occurrence of every key, in order.
    Every [float()] call builds a new object, so two keys are the same key
    exactly when they compare equal with [==]. *)
Fixpoint fromkeys (l : list float) : list float :=
  match l with
  | [] => []
  | x :: l' => x :: filter (fun y => PrimFloat.eqb y x = false) (fromkeys l')
  end.

(** [l.sort()]: a stable sort with [<] as its only comparison. On a list
    without NaN, [<] is a strict weak order and the stable sort is unique;
    it is written here as insertion from the right. *)
Fixpoint sort_insert (x : float) (l : list float) : list float :=
  match l with
  | [] => [x]
  | y :: l' => if PrimFloat.ltb y x then y :: sort_insert x l' else x :: y :: l'
  end.

Definition sort (l : list float) : list float := foldr sort_insert [] l.


(** ** The records of the program *)

Module Image.

Record t : Type := mk { id : string; fname : string; ts_in : float; ts_out : float }.

End Image.

Module Frame.

Record t : Type := mk { fname : string; ts_in : float; ts_out : float }.

End Frame.

(** What [requests.get] returns when it returns. *)
Record response : Type := { status_code : Z; content : string }.


(** ** Element trees *)

Inductive Element : Type :=
  mkElement { tag : string; attrib : gmap string string; children : list Element }.

Definition svg_image : string := "{http://www.w3.org/2000/svg}image".

Definition svg_g : string := "{http://www.w3.org/2000/svg}g".

Definition xlink_href : string := "{http://www.w3.org/1999/xlink}href".

(** [tree.findall("svg:image", namespaces)]: the direct children with that
    tag, in document order, as a fresh list. *)
Definition findall (t : string) (tree : Element) : list Element :=
  filter (fun e => tag e = t) (children tree).

(** [e.attrib[k]], which raises [KeyError] on a missing key. *)
Definition getitem (e : Element) (k : string) : result string :=
  match attrib e !! k with
  | Some v => Ok v
  | None => Raise (KeyError k)
  end.

(** [e.attrib[k] = v]. *)
Definition setitem (e : Element) (k v : string) : Element :=
  mkElement (tag e) (<[k := v]> (attrib e)) (children e).

(** An element object is addressed by the child indices that lead to it
    from the root. *)
Definition path : Type := list nat.

Fixpoint get_at (tree : Element) (p : path) {struct p} : option Element :=
  match p with
  | [] => Some tree
  | i :: p' => e ← children tree !! i; get_at e p'
  end.

(** In-place update of the element at [p]. *)
Fixpoint update_at (f : Element -> Element) (tree : Element) (p : path)
    {struct p} : Element :=
  match p with
  | [] => f tree
  | i :: p' =>
      mkElement (tag tree) (attrib tree)
        (alter (fun e => update_at f e p') i (children tree))
  end.


(** ** The order of Python floats *)

Definition flt (x y : float) : Prop := PrimFloat.ltb x y = true.

Definition fle (x y : float) : Prop := PrimFloat.leb x y = true.

(** The order of the non-NaN binary64 numbers, read off [SFcompare]: class
    first (infinities outermost, zeros in the middle), then exponent, then
    mantissa, the last two reversed below zero. *)
Definition sf_key (f : spec_float) : Z * Z * Z :=
  match f with
  | S754_zero _ => (0, 0, 0)
  | S754_infinity s => (if s then -2 else 2, 0, 0)
  | S754_nan => (0, 0, 0)
  | S754_finite s m e =>
      if s then (-1, - e, - Z.pos m) else (1, e, Z.pos m)
  end%Z.

Definition key_lt (a b : Z * Z * Z) : Prop :=
  (a.1.1 < b.1.1 \/ (a.1.1 = b.1.1 /\ (a.1.2 < b.1.2 \/ (a.1.2 = b.1.2 /\ a.2 < b.2))))%Z.

Definition sf_num (f : spec_float) : Prop := f <> S754_nan.

Definition float_key (x : float) : Z * Z * Z := sf_key (Prim2SF x).


(** ** [sort] and [fromkeys] *)

Definition numbers (l : list float) : Prop := Forall (fun x => is_nan x = false) l.


(** Strictly increasing: every entry is below every later one. *)
Definition increasing (l : list float) : Prop := StronglySorted flt l.

(** The elements of a document in document order, the root first. *)
Fixpoint elements (tree : Element) : list Element :=
  tree ::
  match tree with
  | mkElement _ _ kids =>
      (fix each (es : list Element) : list Element :=
         match es with
         | [] => []
         | e :: es' => elements e ++ each es'
         end) kids
  end.

(** The elements below the root. *)
Definition descendants (tree : Element) : list Element :=
  flat_map elements (children tree).


(** ** Worker pools

    [fetch_images] and [generate_frames] each start [os.cpu_count()] threads
    that loop forever on [workq.get()], run one job and call
    [workq.task_done()]; the main thread puts the jobs and then blocks in
    [workq.join()] until the queue's count of unfinished tasks is zero. A
    job that raises ends its thread before [task_done]: the count never
    reaches zero for it.

    A job is run as one atomic transformation of the shared store: the
    appends and attribute writes of different jobs interleave only as whole
    steps under the interpreter lock, and a job touches no element but its
    own. *)

Inductive job_result (Store : Type) : Type :=
| Done (s : Store)
| Died (s : Store) (e : exn).

Arguments Done {Store} s.

Arguments Died {Store} s e.

Section Pool.

Context {J Store : Type}.

Variable body : J -> Store -> job_result Store.

Record pool : Type := mkPool {
  to_put : list J;          (* jobs the main thread has yet to put *)
  workq : list J;           (* the queue, oldest first *)
  busy : list J;            (* jobs taken by a worker, not yet finished *)
  idle : nat;               (* workers blocked in workq.get() *)
  unfinished : nat;         (* the queue's unfinished_tasks counter *)
  shared : Store;           (* the Scrape object's fields *)
  done_log : list J;        (* history: jobs finished, in that order *)
  crash_log : list (J * exn) (* history: threads ended by an exception *)
}.

Definition pool_init (ncpu : nat) (jobs : list J) (s : Store) : pool :=
  mkPool jobs [] [] ncpu 0 s [] [].

Inductive action : Type :=
| Put                 (* main thread: workq.put(job) *)
| Get                 (* an idle worker: workq.get() returns *)
| Finish (i : nat).   (* the worker on [busy !! i] runs its job to the end *)

Definition exec (a : action) (p : pool) : option pool :=
  match a with
  | Put =>
      match to_put p with
      | j :: rest =>
          Some (mkPool rest (workq p ++ [j]) (busy p) (idle p)
                  (S (unfinished p)) (shared p) (done_log p) (crash_log p))
      | [] => None
      end
  | Get =>
      match idle p, workq p with
      | S k, j :: q =>
          Some (mkPool (to_put p) q (busy p ++ [j]) k
                  (unfinished p) (shared p) (done_log p) (crash_log p))
      | _, _ => None
      end
  | Finish i =>
      match busy p !! i with
      | Some j =>
          match body j (shared p) with
          | Done s' =>
              Some (mkPool (to_put p) (workq p) (delete i (busy p)) (S (idle p))
                      (pred (unfinished p)) s' (done_log p ++ [j]) (crash_log p))
          | Died s' e =>
              Some (mkPool (to_put p) (workq p) (delete i (busy p)) (idle p)
                      (unfinished p) s' (done_log p) (crash_log p ++ [(j, e)]))
          end
      | None => None
      end
  end.

Definition pool_step (p p' : pool) : Prop := exists a, exec a p = Some p'.

(** [workq.join()] returns: every job was put and none is unfinished. *)
Definition joined (p : pool) : Prop := to_put p = [] /\ unfinished p = 0.

(** A run under a given schedule. *)
Fixpoint run (sched : list action) (p : pool) : option pool :=
  match sched with
  | [] => Some p
  | a :: sched' => p' ← exec a p; run sched' p'
  end.

(** The schedule of a single worker: put everything, then get and finish
    one job after the other. *)
Definition sequential (n : nat) : list action :=
  replicate n Put ++ mjoin (replicate n [Get; Finish 0]).

(** What every reachable state satisfies: the jobs are all accounted for,
    and the unfinished counter counts the jobs put and not finished. *)
Record pool_inv (ncpu : nat) (jobs : list J) (p : pool) : Prop := {
  inv_jobs : jobs ≡ₚ done_log p ++ (crash_log p).*1 ++ busy p ++ workq p ++ to_put p;
  inv_unfinished :
    unfinished p = length (crash_log p) + length (busy p) + length (workq p);
  inv_workers : idle p + length (busy p) + length (crash_log p) = ncpu
}.

(** Every run is finite: each step moves a job one stage on. *)
Definition pool_weight (p : pool) : nat :=
  3 * length (to_put p) + 2 * length (workq p) + length (busy p).


End Pool.

Arguments pool : clear implicits.


(** ** The Scrape object *)

Section Scrape.

(** [float(s)]: a float, or [ValueError]. *)
Variable to_float : string -> result float.

(** ["{}".format(x)] and ["{:f}".format(x)] on a float. *)
Variable float_str : float -> string.

Variable float_f : float -> string.

(** [requests.get(url)]: a response, or an exception of the transport. *)
Variable requests_get : string -> result response.

(** [self.baseurl]. *)
Variable baseurl : string.


(** *** Asset resolver: [fetch_images] and [fetch_image] *)

(** The shared fields while [fetch_images] runs; [outdir] maps a file name
    under [self.out] to the bytes written there. *)
Record fetch_store : Type := mkFetch {
  fs_shapes : Element;
  fs_images : list Image.t;
  fs_outdir : gmap string string
}.

(** Indices of the children [tree.findall("svg:image")] returns. *)
Fixpoint image_indices (i : nat) (kids : list Element) : list nat :=
  match kids with
  | [] => []
  | e :: kids' =>
      if decide (tag e = svg_image) then i :: image_indices (S i) kids'
      else image_indices (S i) kids'
  end.

(** The elements [fetch_images(tree)] puts on the queue, in the order it
    puts them: the image children of [tree], then the same for each child
    in turn. *)
Fixpoint fetch_images_queue (here : path) (tree : Element) : list path :=
  match tree with
  | mkElement _ _ kids =>
      map (fun i => here ++ [i]) (image_indices 0 kids)
      ++ (fix each (i : nat) (es : list Element) : list path :=
            match es with
            | [] => []
            | e :: es' => fetch_images_queue (here ++ [i]) e ++ each (S i) es'
            end) 0 kids
  end.

(** The [Image] record of lines 70-74, fields evaluated left to right. *)
Definition image_record (e : Element) (fname : string) : result (option Image.t) :=
  match attrib e !! "id" with
  | Some i =>
      s_in ← getitem e "in";
      t_in ← to_float s_in;
      s_out ← getitem e "out";
      t_out ← to_float s_out;
      Ok (Some (Image.mk i fname t_in t_out))
  | None => Ok None
  end.

(** One turn of the [fetch_image] loop on the element at [p]. A path of
    the queue always addresses an element; elsewhere nothing happens. *)
Definition fetch_image (p : path) (st : fetch_store) : job_result fetch_store :=
  match get_at (fs_shapes st) p with
  | None => Done st
  | Some e =>
      match getitem e xlink_href with
      | Raise x => Died st x
      | Ok href =>
          let fname := basename href in
          match requests_get (baseurl +:+ "/" +:+ href) with
          | Raise x => Died st x
          | Ok image =>
              let outdir := <[fname := content image]> (fs_outdir st) in
              let shapes :=
                update_at (fun e => setitem e xlink_href fname) (fs_shapes st) p in
              match image_record e fname with
              | Raise x => Died (mkFetch shapes (fs_images st) outdir) x
              | Ok None => Done (mkFetch shapes (fs_images st) outdir)
              | Ok (Some img) => Done (mkFetch shapes (fs_images st ++ [img]) outdir)
              end
          end
      end
  end.

Definition fetch_images_init (ncpu : nat) (shapes : Element)
    (outdir : gmap string string) : pool path fetch_store :=
  pool_init ncpu (fetch_images_queue [] shapes) (mkFetch shapes [] outdir).


(** *** Timeline extractor: [read_timestamps] *)

Definition append_attr (e : Element) (k : string) (acc : list float)
    : result (list float) :=
  match attrib e !! k with
  | Some v => x ← to_float v; Ok (acc ++ [x])
  | None => Ok acc
  end.

(** [read_timestamps(tree)] for a tree: appends to [self.timestamps]. *)
Fixpoint read_timestamps_walk (tree : Element) (acc : list float)
    : result (list float) :=
  match tree with
  | mkElement _ _ kids =>
      (fix each (es : list Element) (acc : list float) : result (list float) :=
         match es with
         | [] => Ok acc
         | e :: es' =>
             acc ← append_attr e "in" acc;
             acc ← append_attr e "out" acc;
             acc ← append_attr e "timestamp" acc;
             acc ← read_timestamps_walk e acc;
             each es' acc
         end) kids acc
  end.

(** [read_timestamps()]: the new value of [self.timestamps]. *)
Definition read_timestamps (shapes : Element) : result (list float) :=
  ts ← read_timestamps_walk shapes [];
  Ok (sort (fromkeys ts)).


(** *** Frame synthesizer: [generate_frames], [generate_frame] and
    [make_visible] *)

(** The loop of lines 122-125: [t] starts at [0.0] and follows the
    timestamps after the first. *)
Fixpoint intervals (t : float) (ts : list float) : list (float * float) :=
  match ts with
  | [] => []
  | ts_out :: rest => (t, ts_out) :: intervals ts_out rest
  end.

Definition generate_frames_queue (timestamps : list float) : list (float * float) :=
  intervals 0%float (drop 1 timestamps).

(** Lines 132-135: the last image of [self.images] whose interval holds
    [timestamp] stays in [image]. *)
Definition covers (timestamp : float) (i : Image.t) : bool :=
  PrimFloat.leb (Image.ts_in i) timestamp && PrimFloat.ltb timestamp (Image.ts_out i).

Definition active_image (images : list Image.t) (timestamp : float) : option string :=
  foldl (fun image i => if covers timestamp i then Some (Image.id i) else image)
        None images.

(** Lines 136-140, as the children of [shapes] they leave behind. *)
Fixpoint prune_images (image : option string) (kids : list Element)
    : result (list Element) :=
  match kids with
  | [] => Ok []
  | e :: kids' =>
      if decide (tag e = svg_image) then
        i ← getitem e "id";
        if decide (Some i = image) then
          rest ← prune_images image kids'; Ok (setitem e "style" "" :: rest)
        else prune_images image kids'
      else rest ← prune_images image kids'; Ok (e :: rest)
  end.

Definition hidden : string := "visibility:hidden".

(** Lines 164-166 on one annotation. *)
Definition reveal (e : Element) : result Element :=
  s ← getitem e "style";
  style ← list_remove hidden (split ";" s);
  Ok (setitem e "style" (join ";" style)).

(** The test of lines 162-163; [float()] may raise. *)
Definition revealed_at (e : Element) (timestamp : float) : result bool :=
  match attrib e !! "timestamp" with
  | Some v => r ← to_float v; Ok (PrimFloat.leb r timestamp)
  | None => Ok false
  end.

(** [make_visible(tree, timestamp)], as the children of [tree] it leaves
    behind: it visits the [svg:g] children only and does not descend. *)
Fixpoint make_visible_kids (timestamp : float) (kids : list Element)
    : result (list Element) :=
  match kids with
  | [] => Ok []
  | e :: kids' =>
      if decide (tag e = svg_g) then
        keep ← revealed_at e timestamp;
        if keep : bool then
          e' ← reveal e;
          rest ← make_visible_kids timestamp kids'; Ok (e' :: rest)
        else make_visible_kids timestamp kids'
      else rest ← make_visible_kids timestamp kids'; Ok (e :: rest)
  end.

Definition make_visible (tree : Element) (timestamp : float) : result Element :=
  kids ← make_visible_kids timestamp (children tree);
  Ok (mkElement (tag tree) (attrib tree) kids).

(** Lines 141-147. *)
Fixpoint prune_groups (image : option string) (timestamp : float)
    (kids : list Element) : result (list Element) :=
  match kids with
  | [] => Ok []
  | e :: kids' =>
      if decide (tag e = svg_g) then
        c ← getitem e "class";
        if decide (c = "canvas") then
          i ← getitem e "image";
          if decide (Some i = image) then
            e' ← make_visible (setitem e "display" "inherit") timestamp;
            rest ← prune_groups image timestamp kids'; Ok (e' :: rest)
          else prune_groups image timestamp kids'
        else Raise AssertionError
      else rest ← prune_groups image timestamp kids'; Ok (e :: rest)
  end.

(** Lines 131-147: the pruned copy of the document for one frame. *)
Definition prune (shapes : Element) (images : list Image.t) (timestamp : float)
    : result Element :=
  let image := active_image images timestamp in
  kids ← prune_images image (children shapes);
  kids ← prune_groups image timestamp kids;
  Ok (mkElement (tag shapes) (attrib shapes) kids).

(** The shared fields while [generate_frames] runs; [fr_outdir] holds the
    per-frame documents written under [self.out]. The rasterizer is
    external: its image file is named, not modelled. *)
Record frame_store : Type := mkFrames {
  fr_frames : list Frame.t;
  fr_outdir : gmap string Element
}.

Definition frame_png (timestamp : float) : string :=
  "frames/shapes" +:+ float_str timestamp +:+ ".png".

Definition frame_svg (timestamp : float) : string :=
  "frames/shapes" +:+ float_str timestamp +:+ ".svg".

Definition frame_of (job : float * float) : Frame.t :=
  Frame.mk (frame_png job.1) job.1 job.2.

(** One turn of the [generate_frame] loop. *)
Definition generate_frame (shapes : Element) (images : list Image.t)
    (job : float * float) (st : frame_store) : job_result frame_store :=
  match prune shapes images job.1 with
  | Raise x => Died st x
  | Ok doc =>
      Done (mkFrames (fr_frames st ++ [frame_of job])
                     (<[frame_svg job.1 := doc]> (fr_outdir st)))
  end.

Definition generate_frames_init (ncpu : nat) (timestamps : list float)
    (outdir : gmap string Element) : pool (float * float) frame_store :=
  pool_init ncpu (generate_frames_queue timestamps) (mkFrames [] outdir).


(** *** Manifest builder: [generate_concat] *)

Definition newline : string := String (ascii_of_nat 10) EmptyString.

(** ["file '{}'\n".format(fname)] and ["duration {:f}\n".format(d)]. *)
Definition file_line (fname : string) : string :=
  "file '" +:+ fname +:+ "'" +:+ newline.

Definition duration_line (d : float) : string :=
  "duration " +:+ float_f d +:+ newline.

(** The writes to [concat.txt], in order. [self.frames[-1]] comes after the
    loop and raises [IndexError] on an empty list. *)
Definition generate_concat (frames : list Frame.t) : result (list string) :=
  let f :=
    foldl (fun f frame =>
             f ++ [file_line (Frame.fname frame);
                   duration_line (PrimFloat.sub (Frame.ts_out frame)
                                                (Frame.ts_in frame))])
          [] frames in
  match last frames with
  | Some frame => Ok (f ++ [file_line (Frame.fname frame)])
  | None => Raise IndexError
  end.


(** *** The timeline extractor *)

(** The attribute values [read_timestamps] reads off one element, in the
    order it reads them. *)
Definition stamp_strings (e : Element) : list string :=
  omap (fun k => attrib e !! k) ["in"; "out"; "timestamp"].

#[local] Arguments stamp_strings : simpl never.

(** [float()] along a list; the first value that raises ends it. *)
Fixpoint to_floats (l : list string) : result (list float) :=
  match l with
  | [] => Ok []
  | v :: l' => x ← to_float v; xs ← to_floats l'; Ok (x :: xs)
  end.




(** Frames by interval start. *)
Definition starts_before (f g : Frame.t) : Prop := flt (Frame.ts_in f) (Frame.ts_in g).

Definition starts_no_later (f g : Frame.t) : Prop := fle (Frame.ts_in f) (Frame.ts_in g).




(** *** The frame synthesizer: the pool *)

Definition is_Ok {A} (r : result A) : bool :=
  match r with Ok _ => true | Raise _ => false end.




(** *** The manifest builder *)

(** The specification's order: a stable sort by [ts_in]. *)
Fixpoint spec_sort_insert (f : Frame.t) (l : list Frame.t) : list Frame.t :=
  match l with
  | [] => [f]
  | g :: l' =>
      if PrimFloat.ltb (Frame.ts_in g) (Frame.ts_in f) then g :: spec_sort_insert f l'
      else f :: g :: l'
  end.

Definition spec_sort_frames (frames : list Frame.t) : list Frame.t :=
  foldr spec_sort_insert [] frames.

(** The entries of a manifest, as the specification names them. *)
Inductive entry : Type :=
| Pair (path : string) (duration : float)
| Trailing (path : string).

Definition entry_lines (en : entry) : list string :=
  match en with
  | Pair path d => [file_line path; duration_line d]
  | Trailing path => [file_line path]
  end.

Definition frame_pair (frame : Frame.t) : entry :=
  Pair (Frame.fname frame) (PrimFloat.sub (Frame.ts_out frame) (Frame.ts_in frame)).

(** The specification's manifest: the frames sorted, then written. *)
Definition spec_generate_concat (frames : list Frame.t) : result (list string) :=
  generate_concat (spec_sort_frames frames).


(** *** Degenerate timelines *)

(** What the specification asks: a document with fewer than two distinct
    timestamps does not get past the timeline extractor. *)
Definition spec_rejects_degenerate (shapes : Element) : Prop :=
  forall ts, read_timestamps shapes = Ok ts -> 2 <= length ts.


(** *** Annotations: [make_visible] *)

(** The effect of lines 164-166 on an annotation: the first token
    [visibility:hidden] of its style leaves, the others stay as they are. *)
Definition revealed (e e' : Element) : Prop :=
  exists s l1 l2,
    attrib e !! "style" = Some s
    /\ split ";" s = l1 ++ hidden :: l2
    /\ (hidden ∉ l1)
    /\ e' = setitem e "style" (join ";" (l1 ++ l2)).

(** An annotation whose style does not hold the token. *)
Definition lacks_hidden (e : Element) : Prop :=
  match attrib e !! "style" with
  | Some s => hidden ∉ split ";" s
  | None => True
  end.

(** The specification's test on a child of a canvas group: an annotation
    (an [svg:g] child) stays exactly when it has a timestamp [r <= t];
    other children are not annotations and stay. *)
Definition spec_kept (timestamp : float) (e : Element) : bool :=
  if decide (tag e = svg_g) then
    match attrib e !! "timestamp" with
    | Some v =>
        match to_float v with
        | Ok r => PrimFloat.leb r timestamp
        | Raise _ => false
        end
    | None => false
    end
  else true.

(** What a child that stays looks like in the frame. *)
Definition shown (e e' : Element) : Prop :=
  if decide (tag e = svg_g) then revealed e e' else e' = e.

(** The annotations of a frame: the [svg:g] children of its canvas
    groups. *)
Definition annotations (doc : Element) : list Element :=
  flat_map (findall svg_g) (findall svg_g doc).

(** The specification's monotonic reveal, frame by frame. *)
Definition spec_reveal_monotone (shapes : Element) (images : list Image.t) : Prop :=
  forall t t' doc doc' a,
    flt t t' ->
    prune shapes images t = Ok doc -> prune shapes images t' = Ok doc' ->
    a ∈ annotations doc -> a ∈ annotations doc'.

(** The specification's determinism: any two runs of the asset resolver
    on a document lead to the same active asset at [t]. *)
Definition spec_active_deterministic (ncpu : nat) (shapes : Element)
    (outdir : gmap string string) (t : float) : Prop :=
  forall p1 p2,
    rtc (pool_step fetch_image) (fetch_images_init ncpu shapes outdir) p1 ->
    rtc (pool_step fetch_image) (fetch_images_init ncpu shapes outdir) p2 ->
    joined p1 -> joined p2 ->
    active_image (fs_images (shared p1)) t = active_image (fs_images (shared p2)) t.



(** *** The asset resolver: runs *)

(** [basename] of a name without a slash is the name. *)
Fixpoint no_slash (s : string) : bool :=
  match s with
  | EmptyString => true
  | String c s' => negb (Ascii.eqb c "/"%char) && no_slash s'
  end.

(** An element and what the asset phase may have made of it: only the
    reference can differ, and only by having been rewritten. *)
Definition same_but_href (e e' : Element) : Prop :=
  (forall k, k <> xlink_href -> attrib e' !! k = attrib e !! k)
  /\ (attrib e' !! xlink_href = attrib e !! xlink_href
      \/ attrib e' !! xlink_href = basename <$> attrib e !! xlink_href).

Definition resolved_from (shapes current : Element) : Prop :=
  forall q, option_Forall2 same_but_href (get_at shapes q) (get_at current q).

(** The Asset that the job on the element at [p] records when it runs to
    its end, read off the document as it was parsed. *)
Definition asset_of (shapes : Element) (p : path) : option Image.t :=
  e ← get_at shapes p;
  href ← attrib e !! xlink_href;
  match image_record e (basename href) with
  | Ok r => r
  | Raise _ => None
  end.

(** *** The asset resolver: the document it leaves *)

(** The places of the image elements below the root. *)
Definition image_below (tree : Element) (q : path) : Prop :=
  q <> [] /\ exists e, get_at tree q = Some e /\ tag e = svg_image.

(** Line 69 on one element: the reference cut down to its last segment. *)
Definition localized (e : Element) : Element :=
  match attrib e !! xlink_href with
  | Some href => setitem e xlink_href (basename href)
  | None => e
  end.

(** The parsed document with every image element below the root
    localized, and nothing else changed. *)
Fixpoint resolved (tree : Element) : Element :=
  match tree with
  | mkElement t a kids =>
      mkElement t a
        ((fix each (es : list Element) : list Element :=
            match es with
            | [] => []
            | e :: es' =>
                (if decide (tag e = svg_image) then localized (resolved e)
                 else resolved e) :: each es'
            end) kids)
  end.

(** Two elements with the same tag and the same attributes. *)
Definition same_node (e e' : Element) : Prop :=
  tag e' = tag e /\ attrib e' = attrib e.

(** The document while the asset phase runs: every element is as it was
    parsed, but for the reference of the elements whose job is done. *)
Definition resolved_so_far (shapes : Element) (p : pool path fetch_store) : Prop :=
  forall q,
    option_Forall2
      (fun e0 e => same_node (if decide (q ∈ done_log p) then localized e0 else e0) e)
      (get_at shapes q) (get_at (fs_shapes (shared p)) q).

(** The image files of the jobs [jobs] in the output directory: each is
    there under the last segment of its reference, with the body of an
    answer to one of these jobs that has this name. *)
Definition stored (shapes : Element) (jobs : list path)
    (outdir : gmap string string) : Prop :=
  forall q e h,
    q ∈ jobs -> get_at shapes q = Some e -> attrib e !! xlink_href = Some h ->
    exists q' e' h' image,
      q' ∈ jobs /\ get_at shapes q' = Some e'
      /\ attrib e' !! xlink_href = Some h' /\ basename h' = basename h
      /\ requests_get (baseurl +:+ "/" +:+ h') = Ok image
      /\ outdir !! basename h = Some (content image).

(** The names under which the jobs [jobs] store their images. *)
Definition image_names (shapes : Element) (jobs : list path) : list string :=
  omap (fun q => e ← get_at shapes q; h ← attrib e !! xlink_href; Some (basename h))
       jobs.

(** The job on the element at [p] can run to its end: the element has a
    reference, the server answers the request for it, and an element with
    an [id] has numeric [in] and [out]. *)
Definition can_fetch (shapes : Element) (p : path) : bool :=
  match get_at shapes p with
  | Some e =>
      match attrib e !! xlink_href with
      | Some href =>
          is_Ok (requests_get (baseurl +:+ "/" +:+ href))
          && is_Ok (image_record e (basename href))
      | None => false
      end
  | None => false
  end.


(** What holds of the asset phase as long as no thread has died. *)
Definition fetched_so_far (shapes : Element) (outdir : gmap string string)
    (p : pool path fetch_store) : Prop :=
  resolved_so_far shapes p
  /\ stored shapes (done_log p) (fs_outdir (shared p))
  /\ (forall k, k ∉ image_names shapes (done_log p) ->
                fs_outdir (shared p) !! k = outdir !! k)
  /\ Forall (fun j => can_fetch shapes j = true) (done_log p).


(** *** The frame synthesizer: documents it cannot render *)


(** The children of the root that are neither images nor groups. *)
Definition backdrop (tree : Element) : list Element :=
  filter (fun e => tag e <> svg_image /\ tag e <> svg_g) (children tree).


(** *** The frame synthesizer: a frame and its interval *)

(** A time that does not fall inside the interval from [t] to [t']: it
    is not a number, or it is [t] at most, or [t'] at least. *)
Definition settled (t t' y : float) : Prop :=
  is_nan y = true \/ fle y t \/ fle t' y.

(** An annotation whose timestamp, when it has one that is a float, is
    settled. *)
Definition settled_stamp (t t' : float) (a : Element) : Prop :=
  forall v r, attrib a !! "timestamp" = Some v -> to_float v = Ok r -> settled t t' r.


(** *** Annotations: the tokens of a style *)

(** A string without the character [c]. *)
Fixpoint lacks (c : ascii) (s : string) : bool :=
  match s with
  | EmptyString => true
  | String a s' => negb (Ascii.eqb a c) && lacks c s'
  end.

(** ** Parameters and documents of the worked runs

    The parameters are given values for the examples: [demo_float] is
    [float()] on plain decimal literals of at most 15 digits (and on [nan]),
    where the correctly rounded quotient of two exact integers is what
    Python computes; [demo_str] is [str()] on the floats whose exact decimal
    expansion is short enough to be what Python prints; [demo_f] is
    ["{:f}".format]; [demo_get] is a server that has every file but
    [gone.png] (answered with status 404) and cannot be reached for
    [down.png]. *)

Definition digit_of (c : ascii) : option Z :=
  let n := (Z.of_nat (nat_of_ascii c) - 48)%Z in
  if ((0 <=? n) && (n <=? 9))%Z then Some n else None.

(** Mantissa and power of ten of [digits[.digits]]. *)
Fixpoint decimal (s : string) (point : bool) (mant scale : Z) (n : nat)
    : option (Z * Z) :=
  match s with
  | EmptyString => if n is 0 then None else Some (mant, scale)
  | String c s' =>
      if Ascii.eqb c "."%char then
        if point then None else decimal s' true mant scale n
      else
        match digit_of c with
        | Some d =>
            decimal s' point (10 * mant + d)%Z
                    (if point then (10 * scale)%Z else scale) (S n)
        | None => None
        end
  end.

Definition float_of_Z (z : Z) : float := PrimFloat.of_uint63 (Uint63.of_Z z).

Definition demo_float (s : string) : result float :=
  let bad := Raise (ValueError "could not convert string to float") in
  if decide (s = "nan") then Ok nan
  else
    let '(neg, digits) :=
      match s with
      | String "-"%char s' => (true, s')
      | _ => (false, s)
      end in
    match decimal digits false 0 1 0 with
    | Some (mant, scale) =>
        if ((mant <? 10 ^ 15) && (scale <=? 10 ^ 15))%Z then
          let x := PrimFloat.div (float_of_Z mant) (float_of_Z scale) in
          Ok (if neg : bool then PrimFloat.opp x else x)
        else bad
    | None => bad
    end.

(** The digits of [n], at least [width] of them. *)
Definition zero_padded (width : nat) (n : Z) : string :=
  let s := pretty n in
  String.concat "" (replicate (width - String.length s) "0") +:+ s.

Fixpoint strip_zeros (s : string) : string :=
  match s with
  | EmptyString => EmptyString
  | String c s' =>
      let r := strip_zeros s' in
      if decide (r = EmptyString) then
        if Ascii.eqb c "0"%char then EmptyString else String c EmptyString
      else String c r
  end.

Definition demo_str (x : float) : string :=
  match Prim2SF x with
  | S754_zero s => if s then "-0.0" else "0.0"
  | S754_infinity s => if s then "-inf" else "inf"
  | S754_nan => "nan"
  | S754_finite s m e =>
      let sign := if s then "-" else "" in
      if (0 <=? e)%Z then sign +:+ pretty (Z.pos m * 2 ^ e)%Z +:+ ".0"
      else
        let k := (- e)%Z in
        let n := (Z.pos m * 5 ^ k)%Z in
        let frac := strip_zeros (zero_padded (Z.to_nat k) (n mod 10 ^ k)%Z) in
        sign +:+ pretty (n / 10 ^ k)%Z +:+ "."
             +:+ (if decide (frac = EmptyString) then "0" else frac)
  end.

(** ["{:f}".format(x)]: six decimals, the exact value rounded half to
    even. *)
Definition demo_f (x : float) : string :=
  match Prim2SF x with
  | S754_zero s => if s then "-0.000000" else "0.000000"
  | S754_infinity s => if s then "-inf" else "inf"
  | S754_nan => "nan"
  | S754_finite s m e =>
      let num := (Z.pos m * 10 ^ 6 * 2 ^ Z.max e 0)%Z in
      let den := (2 ^ Z.max (- e) 0)%Z in
      let q := (num / den)%Z in
      let r := (num mod den)%Z in
      let q := if ((den <? 2 * r) || ((den =? 2 * r) && Z.odd q))%Z
               then (q + 1)%Z else q in
      (if s then "-" else "") +:+ pretty (q / 10 ^ 6)%Z +:+ "."
        +:+ zero_padded 6 (q mod 10 ^ 6)%Z
  end.

Definition demo_get (url : string) : result response :=
  if decide (basename url = "down.png") then Raise ConnectionError
  else if decide (basename url = "gone.png") then
    Ok {| status_code := 404; content := "<html>404 Not Found</html>" |}
  else Ok {| status_code := 200; content := "PNG of " +:+ url |}.

Definition demo_base : string := "https://bbb.example.org/presentation/m1".


(** *** Documents *)

Definition image_elt (id href t_in t_out : string) : Element :=
  mkElement svg_image
    (list_to_map [("id", id); (xlink_href, href); ("in", t_in); ("out", t_out);
                  ("style", "visibility:hidden")]) [].

Definition canvas (id image : string) (kids : list Element) : Element :=
  mkElement svg_g
    (list_to_map [("class", "canvas"); ("id", id); ("image", image);
                  ("display", "none")]) kids.

Definition annotation (id timestamp style : string) : Element :=
  mkElement svg_g
    (list_to_map [("id", id); ("timestamp", timestamp); ("style", style)]) [].

Definition svg (kids : list Element) : Element :=
  mkElement "{http://www.w3.org/2000/svg}svg" (list_to_map [("id", "svgfile")]) kids.

(** Two slides, the first with two annotations. *)
Definition two_slides : Element :=
  svg [image_elt "image1" "presentation/abc/slide-1.png" "0.0" "4.0";
       canvas "canvas1" "image1"
         [annotation "draw1" "1.0" "stroke:none;visibility:hidden";
          annotation "draw2" "3.0" "visibility:hidden;fill:red"];
       image_elt "image2" "presentation/abc/slide-2.png" "4.0" "9.0";
       canvas "canvas2" "image2" []].

Definition two_slides_images : list Image.t :=
  [Image.mk "image1" "slide-1.png" 0 4; Image.mk "image2" "slide-2.png" 4 9].


Definition two_frames : list Frame.t :=
  [Frame.mk "frames/shapes0.0.png" 0 1; Frame.mk "frames/shapes1.0.png" 1 3].





(** A document without a timestamp. *)
Definition no_timestamps : Element := svg [].


(** The canvas of the first slide, and what [make_visible] leaves of it at
    [1.0] and at [3.0]. *)
Definition first_canvas : Element :=
  canvas "canvas1" "image1"
    [annotation "draw1" "1.0" "stroke:none;visibility:hidden";
     annotation "draw2" "3.0" "visibility:hidden;fill:red"].

Definition first_canvas_at_1 : Element :=
  canvas "canvas1" "image1"
    [setitem (annotation "draw1" "1.0" "stroke:none;visibility:hidden")
       "style" "stroke:none"].

Definition first_canvas_at_3 : Element :=
  canvas "canvas1" "image1"
    [setitem (annotation "draw1" "1.0" "stroke:none;visibility:hidden")
       "style" "stroke:none";
     setitem (annotation "draw2" "3.0" "visibility:hidden;fill:red")
       "style" "fill:red"].

Definition bare_canvas : Element :=
  canvas "canvas1" "image1" [annotation "draw1" "1.0" "stroke:none"].

(** Two images on screen at [4.0]. *)
Definition overlapping : Element :=
  svg [image_elt "image1" "presentation/abc/slide-1.png" "0.0" "5.0";
       image_elt "image2" "presentation/abc/slide-2.png" "3.0" "9.0"].


(** An image the server does not have, and one it cannot be asked for. *)
Definition missing_image : Element :=
  svg [image_elt "image1" "presentation/abc/gone.png" "0.0" "4.0"].

Definition unreachable_image : Element :=
  svg [image_elt "image1" "presentation/abc/down.png" "0.0" "4.0"].



(** * Properties *)

Lemma SFcompare_key f g :
  sf_num f -> sf_num g ->
  exists c, SFcompare f g = Some c /\
    match c with
    | Lt => key_lt (sf_key f) (sf_key g)
    | Eq => sf_key f = sf_key g
    | Gt => key_lt (sf_key g) (sf_key f)
    end.
Proof.
  unfold sf_num, key_lt.
  destruct f as [[]|[]| |[] m e], g as [[]|[]| |[] n k]; intros Hf Hg;
    try congruence; cbn [SFcompare sf_key fst snd];
    try (eexists; split; [reflexivity|]; cbn; first [reflexivity | lia]);
    change (PosDef.Pos.compare_cont Eq m n) with (Pos.compare m n);
    destruct (Z.compare_spec e k) as [->| |];
    try destruct (Pos.compare_spec m n) as [->| |];
    eexists; (split; [reflexivity|]); cbn; first [reflexivity | lia].
Qed.

Lemma is_nan_false x : is_nan x = false <-> sf_num (Prim2SF x).
Proof.
  unfold is_nan, sf_num. rewrite Bool.negb_false_iff, FloatAxioms.eqb_spec. unfold SFeqb. split.
  - intros H E. rewrite E in H. discriminate.
  - intros H. destruct (SFcompare_key _ _ H H) as ([] & -> & Hc); [done|..];
      unfold key_lt in Hc; lia.
Qed.

Lemma SFcompare_num f g c : SFcompare f g = Some c -> sf_num f /\ sf_num g.
Proof.
  unfold sf_num. intros H. split; intros ->; [|destruct f]; discriminate.
Qed.

Lemma ltb_key x y :
  PrimFloat.ltb x y = true <->
  is_nan x = false /\ is_nan y = false /\ key_lt (float_key x) (float_key y).
Proof.
  rewrite FloatAxioms.ltb_spec, !is_nan_false. unfold SFltb, float_key. split.
  - intros H. destruct (SFcompare _ _) as [c|] eqn:Hc; [|done].
    destruct (SFcompare_num _ _ _ Hc) as [Hx Hy].
    destruct (SFcompare_key _ _ Hx Hy) as (c' & Hc' & Hk).
    rewrite Hc in Hc'. injection Hc' as <-. destruct c; done.
  - intros (Hx & Hy & Hk).
    destruct (SFcompare_key _ _ Hx Hy) as (c & -> & Hc).
    destruct c; [|done|]; unfold key_lt in *; [rewrite Hc in Hk|]; lia.
Qed.

Lemma eqb_key x y :
  PrimFloat.eqb x y = true <->
  is_nan x = false /\ is_nan y = false /\ float_key x = float_key y.
Proof.
  rewrite FloatAxioms.eqb_spec, !is_nan_false. unfold SFeqb, float_key. split.
  - intros H. destruct (SFcompare _ _) as [c|] eqn:Hc; [|done].
    destruct (SFcompare_num _ _ _ Hc) as [Hx Hy].
    destruct (SFcompare_key _ _ Hx Hy) as (c' & Hc' & Hk).
    rewrite Hc in Hc'. injection Hc' as <-. destruct c; done.
  - intros (Hx & Hy & Hk).
    destruct (SFcompare_key _ _ Hx Hy) as (c & -> & Hc).
    destruct c; [done|..]; unfold key_lt in *; rewrite Hk in Hc; lia.
Qed.

Lemma leb_key x y :
  PrimFloat.leb x y = true <->
  is_nan x = false /\ is_nan y = false /\
  (key_lt (float_key x) (float_key y) \/ float_key x = float_key y).
Proof.
  rewrite FloatAxioms.leb_spec, !is_nan_false. unfold SFleb, float_key. split.
  - intros H. destruct (SFcompare _ _) as [c|] eqn:Hc; [|done].
    destruct (SFcompare_num _ _ _ Hc) as [Hx Hy].
    destruct (SFcompare_key _ _ Hx Hy) as (c' & Hc' & Hk).
    rewrite Hc in Hc'. injection Hc' as <-. destruct c; auto; done.
  - intros (Hx & Hy & Hk).
    destruct (SFcompare_key _ _ Hx Hy) as (c & -> & Hc).
    destruct c; [done..|]. unfold key_lt in *.
    destruct Hk as [Hk|Hk]; [|rewrite Hk in Hc]; lia.
Qed.

Lemma key_lt_trans a b c : key_lt a b -> key_lt b c -> key_lt a c.
Proof. unfold key_lt. lia. Qed.

Lemma key_lt_irrefl a : ~ key_lt a a.
Proof. unfold key_lt. lia. Qed.

Lemma key_trichotomy a b : key_lt a b \/ a = b \/ key_lt b a.
Proof.
  destruct a as [[a1 a2] a3], b as [[b1 b2] b3]. unfold key_lt. cbn.
  destruct (Z.lt_total a1 b1) as [|[->|]]; [lia| |lia].
  destruct (Z.lt_total a2 b2) as [|[->|]]; [lia| |lia].
  destruct (Z.lt_total a3 b3) as [|[->|]]; [lia| |lia]. auto.
Qed.

Lemma flt_num x y : flt x y -> is_nan x = false /\ is_nan y = false.
Proof. unfold flt. rewrite ltb_key. by intros (? & ? & _). Qed.

Lemma fle_num x y : fle x y -> is_nan x = false /\ is_nan y = false.
Proof. unfold fle. rewrite leb_key. by intros (? & ? & _). Qed.

Lemma flt_irrefl x : ~ flt x x.
Proof. unfold flt. rewrite ltb_key. intros (_ & _ & H). by apply key_lt_irrefl in H. Qed.


Lemma flt_fle x y : flt x y -> fle x y.
Proof. unfold flt, fle. rewrite ltb_key, leb_key. intros (? & ? & ?). auto. Qed.

Lemma fle_flt_trans x y z : fle x y -> flt y z -> flt x z.
Proof.
  unfold flt, fle. rewrite !ltb_key, leb_key.
  intros (? & ? & [?|E]) (? & ? & ?); [eauto using key_lt_trans|].
  rewrite E. auto.
Qed.

Lemma flt_fle_trans x y z : flt x y -> fle y z -> flt x z.
Proof.
  unfold flt, fle. rewrite !ltb_key, leb_key.
  intros (? & ? & ?) (? & ? & [?|E]); [eauto using key_lt_trans|].
  rewrite <- E. auto.
Qed.

Lemma flt_not_fle x y : flt x y -> ~ fle y x.
Proof.
  intros H1 H2. eapply flt_irrefl, flt_fle_trans; eauto.
Qed.

(** Without NaN, [<] is total up to [==]. *)
Lemma flt_total x y :
  is_nan x = false -> is_nan y = false ->
  flt x y \/ PrimFloat.eqb x y = true \/ flt y x.
Proof.
  unfold flt. rewrite !ltb_key, eqb_key. intros Hx Hy.
  destruct (key_trichotomy (float_key x) (float_key y)) as [?|[?|?]]; auto.
Qed.



Lemma not_flt_fle x y :
  is_nan x = false -> is_nan y = false -> PrimFloat.ltb x y = false -> fle y x.
Proof.
  intros Hx Hy H. unfold fle. rewrite leb_key.
  destruct (flt_total x y Hx Hy) as [Hlt|[Heq|Hlt]].
  - unfold flt in Hlt. congruence.
  - apply eqb_key in Heq as (_ & _ & E). auto.
  - apply ltb_key in Hlt as (_ & _ & Hlt). auto.
Qed.

Lemma sort_insert_perm x l : sort_insert x l ≡ₚ x :: l.
Proof.
  induction l as [|y l IH]; cbn; [done|].
  destruct (PrimFloat.ltb y x); [|done].
  rewrite IH. apply perm_swap.
Qed.

Lemma sort_perm l : sort l ≡ₚ l.
Proof.
  induction l as [|x l IH]; cbn; [done|].
  fold (sort l). by rewrite sort_insert_perm, IH.
Qed.





(** Every number of [l] is in [fromkeys l] up to [==]. *)
Lemma fromkeys_complete l x :
  x ∈ l -> is_nan x = false ->
  exists y, y ∈ fromkeys l /\ PrimFloat.eqb y x = true.
Proof.
  intros Hx Hn. induction l as [|z l IH]; [by apply elem_of_nil in Hx|].
  apply elem_of_cons in Hx as [->|Hx].
  - exists z. split; [left|]. unfold is_nan in Hn. by apply negb_false_iff in Hn.
  - destruct (IH Hx) as (y & Hy & Hyx). cbn.
    destruct (PrimFloat.eqb y z) eqn:Hyz.
    + exists z. split; [left|].
      apply eqb_key in Hyx as (_ & ? & E1). apply eqb_key in Hyz as (_ & ? & E2).
      apply eqb_key. repeat split; congruence.
    + exists y. split; [right|done]. by apply list_elem_of_filter.
Qed.




Lemma sort_fromkeys_complete l x :
  x ∈ l -> is_nan x = false ->
  exists y, y ∈ sort (fromkeys l) /\ PrimFloat.eqb y x = true.
Proof.
  intros Hx Hn. destruct (fromkeys_complete l x Hx Hn) as (y & Hy & E).
  exists y. by rewrite sort_perm.
Qed.





(** ** Facts on results, strings and trees *)

Lemma bind_Ok {A B} (r : result A) (k : A -> result B) (b : B) :
  (r ≫= k) = Ok b <-> exists a, r = Ok a /\ k a = Ok b.
Proof.
  destruct r as [a|e]; cbn; split.
  - intros H. by exists a.
  - by intros (? & [= <-] & H).
  - done.
  - by intros (? & [=] & _).
Qed.

Lemma raises_bind_l {A B} (r : result A) (k : A -> result B) :
  raises r -> raises (r ≫= k).
Proof. intros [e ->]. by exists e. Qed.

Lemma raises_bind_r {A B} (r : result A) (k : A -> result B) :
  (forall a, r = Ok a -> raises (k a)) -> raises (r ≫= k).
Proof. destruct r as [a|e]; cbn; [auto|]. intros _. by exists e. Qed.

Lemma raises_not_Ok {A} (r : result A) (a : A) : raises r -> r <> Ok a.
Proof. by intros [e ->]. Qed.

(** [l.remove(x)] takes the first [x] out and keeps the rest as it is. *)
Lemma list_remove_Ok x l l' :
  list_remove x l = Ok l' <->
  exists l1 l2, l = l1 ++ x :: l2 /\ (x ∉ l1) /\ l' = l1 ++ l2.
Proof.
  revert l'. induction l as [|y l IH]; intros l'; cbn.
  { split; [done|]. intros ([|??] & ? & [=] & _). }
  case_decide as Hy; [subst y|].
  - split.
    + intros [= <-]. exists [], l. split_and!; [done| |done]. apply not_elem_of_nil.
    + intros ([|z l1] & l2 & E & Hn & ->); cbn in *; [by simplify_eq|].
      simplify_eq. destruct Hn. left.
  - rewrite bind_Ok. split.
    + intros (k & Hk & [= <-]). apply IH in Hk as (l1 & l2 & -> & Hn & ->).
      exists (y :: l1), l2. split_and!; [done| |done].
      rewrite not_elem_of_cons. done.
    + intros ([|z l1] & l2 & E & Hn & ->); cbn in *; simplify_eq.
      apply not_elem_of_cons in Hn as [_ Hn].
      exists (l1 ++ l2). split; [|done]. apply IH. eauto.
Qed.

Lemma list_remove_raises x l : x ∉ l -> raises (list_remove x l).
Proof.
  induction l as [|y l IH]; cbn; intros Hn.
  { by eexists. }
  apply not_elem_of_cons in Hn as [Hxy Hn].
  case_decide; [congruence|]. by apply raises_bind_l, IH.
Qed.

(** Structural induction on trees. *)
Lemma Element_forall_ind (P : Element -> Prop) :
  (forall t a kids, Forall P kids -> P (mkElement t a kids)) ->
  forall e, P e.
Proof.
  intros H. fix IH 1. intros [t a kids]. apply H.
  induction kids as [|k kids IHk]; constructor; [apply IH|exact IHk].
Qed.

Lemma elements_unfold tree : elements tree = tree :: descendants tree.
Proof.
  by destruct tree.
Qed.

(** ** Worker pools: runs and invariants *)

Section PoolFacts.
Context {J Store : Type}.
Variable body : J -> Store -> job_result Store.
Implicit Types (p q r : pool J Store) (jobs : list J) (s : Store).

(** *** Runs of a pool *)

Lemma run_steps sched p p' : run body sched p = Some p' -> rtc (pool_step body) p p'.
Proof.
  revert p. induction sched as [|a sched IH]; intros p; cbn.
  { by intros [= ->]. }
  destruct (exec body a p) as [q|] eqn:E; [|done]. cbn. intros H.
  eapply rtc_l; [by exists a|by apply IH].
Qed.

Lemma steps_run p p' : rtc (pool_step body) p p' -> exists sched, run body sched p = Some p'.
Proof.
  induction 1 as [p|p q r [a Ha] _ [sched IH]].
  - by exists [].
  - exists (a :: sched). cbn. by rewrite Ha.
Qed.

Lemma pool_inv_init ncpu (jobs : list J) (s : Store) :
  pool_inv ncpu jobs (pool_init ncpu jobs s).
Proof. split; cbn; [done|done|lia]. Qed.

Lemma pool_inv_exec ncpu jobs a p p' :
  pool_inv ncpu jobs p -> exec body a p = Some p' -> pool_inv ncpu jobs p'.
Proof.
  intros [Hj Hu Hw]. destruct a as [| |i]; cbn.
  - destruct (to_put p) as [|j rest] eqn:E; [done|]. intros [= <-].
    split; cbn; [|rewrite length_app; cbn; lia|done].
    rewrite Hj. rewrite <- !(assoc_L (++)). done.
  - destruct (idle p) as [|k] eqn:Ei; [done|].
    destruct (workq p) as [|j q] eqn:Eq; [done|]. intros [= <-].
    split; cbn; [|rewrite length_app; cbn in *; lia..].
    rewrite Hj. rewrite <- !(assoc_L (++)). done.
  - destruct (busy p !! i) as [j|] eqn:Ej; [|done].
    pose proof (delete_Permutation _ _ _ Ej) as Hb.
    assert (length (busy p) = S (length (delete i (busy p)))) as Hl
      by by rewrite Hb at 1.
    destruct (body j (shared p)) as [s'|s' e]; intros [= <-].
    + split; cbn; [|lia..].
      rewrite Hj. rewrite Hb at 1. rewrite <- !(assoc_L (++)). cbn.
      by rewrite <- !Permutation_middle.
    + split; cbn; [|rewrite length_app; cbn; lia..].
      rewrite Hj. rewrite Hb at 1. rewrite fmap_app. cbn.
      rewrite <- !(assoc_L (++)). cbn.
      by rewrite <- !Permutation_middle.
Qed.

Lemma pool_inv_steps ncpu jobs p p' :
  pool_inv ncpu jobs p -> rtc (pool_step body) p p' -> pool_inv ncpu jobs p'.
Proof.
  intros Hp Hs. induction Hs as [|p q r [a Ha] _ IH]; [done|].
  eauto using pool_inv_exec.
Qed.

(** When [join()] returns, every job was run to its end and no thread
    has died. *)
Lemma joined_all_done ncpu jobs p :
  pool_inv ncpu jobs p -> joined p ->
  done_log p ≡ₚ jobs /\ crash_log p = [] /\ busy p = [] /\ workq p = [].
Proof.
  intros [Hj Hu Hw] [Hp H0]. rewrite H0 in Hu.
  assert (crash_log p = []) as Hc by (apply length_zero_iff_nil; lia).
  assert (busy p = []) as Hb by (apply length_zero_iff_nil; lia).
  assert (workq p = []) as Hq by (apply length_zero_iff_nil; lia).
  rewrite Hj, Hp, Hc, Hb, Hq. cbn. by rewrite (right_id_L [] (++)).
Qed.

(** A thread that has died leaves [join()] blocked for ever. *)
Lemma crash_never_joined a p p' j e :
  (j, e) ∈ crash_log p -> exec body a p = Some p' -> (j, e) ∈ crash_log p'.
Proof.
  intros Hc. destruct a as [| |i]; cbn.
  - destruct (to_put p); [done|]. by intros [= <-].
  - destruct (idle p); [done|]. destruct (workq p); [done|]. by intros [= <-].
  - destruct (busy p !! i) as [k|]; [|done].
    destruct (body k (shared p)); intros [= <-]; cbn; [done|].
    apply elem_of_app. by left.
Qed.

Lemma crash_blocks_join ncpu jobs p p' j e :
  pool_inv ncpu jobs p -> (j, e) ∈ crash_log p ->
  rtc (pool_step body) p p' -> ~ joined p'.
Proof.
  intros Hi Hc Hs Hj.
  assert ((j, e) ∈ crash_log p') as Hc'.
  { clear Hi Hj. induction Hs as [|p q r [a Ha] _ IH]; [done|].
    eauto using crash_never_joined. }
  destruct (joined_all_done ncpu jobs p') as (_ & E & _); [|done|].
  { eauto using pool_inv_steps. }
  rewrite E in Hc'. by apply elem_of_nil in Hc'.
Qed.

Lemma exec_weight a p p' : exec body a p = Some p' -> pool_weight p' < pool_weight p.
Proof.
  unfold pool_weight. destruct a as [| |i]; cbn.
  - destruct (to_put p) as [|j rest]; [done|]. intros [= <-]. cbn.
    rewrite length_app. cbn. lia.
  - destruct (idle p); [done|]. destruct (workq p) as [|j q]; [done|].
    intros [= <-]. cbn. rewrite length_app. cbn. lia.
  - destruct (busy p !! i) as [j|] eqn:Ej; [|done].
    pose proof (delete_Permutation _ _ _ Ej) as Hb.
    assert (length (busy p) = S (length (delete i (busy p)))) as Hl
      by by rewrite Hb at 1.
    destruct (body j (shared p)); intros [= <-]; cbn; lia.
Qed.

Lemma run_length sched p p' :
  run body sched p = Some p' -> length sched + pool_weight p' <= pool_weight p.
Proof.
  revert p. induction sched as [|a sched IH]; intros p; cbn.
  { intros [= ->]. lia. }
  destruct (exec body a p) as [q|] eqn:E; [|done]. cbn. intros H.
  apply IH in H. apply exec_weight in E. unfold pool_weight in *. lia.
Qed.


Lemma busy_job ncpu jobs p i j :
  pool_inv ncpu jobs p -> busy p !! i = Some j -> j ∈ jobs.
Proof.
  intros [Hj _ _] Hi. rewrite Hj. apply list_elem_of_lookup_2 in Hi.
  rewrite !elem_of_app. auto.
Qed.




(** A job that dies on every store the run can be in keeps the join
    blocked for ever, whatever the schedule. *)
Lemma doomed_job_blocks_join (P : Store -> Prop) ncpu jobs s0 j p :
  P s0 ->
  (forall k s, k ∈ jobs -> P s ->
     match body k s with Done s' | Died s' _ => P s' end) ->
  (forall s, P s -> exists s' e, body j s = Died s' e) ->
  j ∈ jobs ->
  rtc (pool_step body) (pool_init ncpu jobs s0) p -> ~ joined p.
Proof.
  intros H0 Hpres Hdie Hj Hs Hjoin.
  pose proof (pool_inv_init ncpu jobs s0) as Hi0.
  assert (pool_inv ncpu jobs p /\ P (shared p) /\ j ∉ done_log p)
    as (Hi & _ & Hn).
  { clear Hjoin.
    apply rtc_ind_r with
      (P := fun p => pool_inv ncpu jobs p /\ P (shared p) /\ j ∉ done_log p) in Hs.
    - done.
    - split_and!; [done..|]. apply not_elem_of_nil.
    - intros q r _ [a Ha] (Hi & HP & Hn).
      split; [by eapply pool_inv_exec|]. destruct a as [| |i]; cbn in Ha.
      + destruct (to_put q); [done|]. by injection Ha as <-.
      + destruct (idle q); [done|]. destruct (workq q); [done|].
        by injection Ha as <-.
      + destruct (busy q !! i) as [k|] eqn:Ek; [|done].
        pose proof (Hpres k (shared q) (busy_job _ _ _ _ _ Hi Ek) HP) as Hk.
        destruct (body k (shared q)) as [s'|s' e] eqn:Eb; injection Ha as <-; cbn.
        * split; [done|]. rewrite not_elem_of_app, not_elem_of_cons.
          split_and!; [done| |apply not_elem_of_nil]. intros <-.
          destruct (Hdie _ HP) as (? & ? & Hd). congruence.
        * done. }
  destruct (joined_all_done _ _ _ Hi Hjoin) as (Hd & _).
  rewrite <- Hd in Hj. done.
Qed.

End PoolFacts.

Lemma to_floats_app l1 l2 :
  to_floats (l1 ++ l2) = (xs ← to_floats l1; ys ← to_floats l2; Ok (xs ++ ys)).
Proof.
  induction l1 as [|v l1 IH]; cbn.
  { by destruct (to_floats l2). }
  destruct (to_float v); cbn; [|done]. rewrite IH.
  destruct (to_floats l1); cbn; [|done]. by destruct (to_floats l2).
Qed.

Lemma append_attr_floats e acc :
  (acc ← append_attr e "in" acc; acc ← append_attr e "out" acc;
   append_attr e "timestamp" acc)
  = (xs ← to_floats (stamp_strings e); Ok (acc ++ xs)).
Proof.
  unfold append_attr, stamp_strings. cbn.
  destruct (attrib e !! "in") as [v1|]; cbn;
    [destruct (to_float v1); cbn; [|done]|];
    (destruct (attrib e !! "out") as [v2|]; cbn;
      [destruct (to_float v2); cbn; [|done]|]);
    (destruct (attrib e !! "timestamp") as [v3|]; cbn;
      [destruct (to_float v3); cbn; [|done]|]);
    by rewrite <- ?(assoc_L (++)), ?(right_id_L [] (++)).
Qed.

(** The walk appends the values of the elements below [tree], in
    document order. *)
Lemma read_timestamps_walk_floats tree acc :
  read_timestamps_walk tree acc
  = (xs ← to_floats (flat_map stamp_strings (descendants tree)); Ok (acc ++ xs)).
Proof.
  revert acc. induction tree as [t a kids IH] using Element_forall_ind.
  unfold descendants. cbn [read_timestamps_walk children].
  induction IH as [|e es He Hes IHes]; intros acc; cbn.
  { by rewrite (right_id_L [] (++)). }
  rewrite elements_unfold. cbn. rewrite !flat_map_app, !to_floats_app.
  pose proof (append_attr_floats e acc) as Ha.
  destruct (append_attr e "in" acc) as [acc1|]; cbn in *;
    [destruct (append_attr e "out" acc1) as [acc2|]; cbn in *|].
  - rewrite Ha.
    destruct (to_floats (stamp_strings e)) as [xs|]; cbn; [|done].
    rewrite He.
    destruct (to_floats (flat_map stamp_strings (descendants e))) as [ys|];
      cbn; [|done].
    rewrite IHes.
    destruct (to_floats (flat_map stamp_strings (flat_map elements es)));
      cbn; [|done].
    by rewrite !(assoc_L (++)).
  - by destruct (to_floats (stamp_strings e)).
  - by destruct (to_floats (stamp_strings e)).
Qed.

Lemma read_timestamps_floats shapes :
  read_timestamps shapes
  = (xs ← to_floats (flat_map stamp_strings (descendants shapes));
     Ok (sort (fromkeys xs))).
Proof.
  unfold read_timestamps. rewrite read_timestamps_walk_floats.
  by destruct (to_floats _).
Qed.

Lemma to_floats_Ok l xs :
  to_floats l = Ok xs <-> Forall2 (fun v x => to_float v = Ok x) l xs.
Proof.
  revert xs. induction l as [|v l IH]; intros xs; cbn.
  { split; [intros [= <-]; constructor|by inversion 1]. }
  rewrite bind_Ok. split.
  - intros (x & Hx & H). apply bind_Ok in H as (ys & Hys & [= <-]).
    constructor; [done|by apply IH].
  - inversion 1 as [|? x ? ys Hx Hys]; subst. exists x. split; [done|].
    apply IH in Hys. by rewrite Hys.
Qed.

Lemma elem_of_flat_map {A B} (f : A -> list B) (l : list A) (y : B) :
  y ∈ flat_map f l <-> exists x, x ∈ l /\ y ∈ f x.
Proof.
  rewrite list_elem_of_In, in_flat_map.
  by setoid_rewrite list_elem_of_In.
Qed.



(** *** The frame synthesizer: intervals *)

Lemma fle_trans x y z : fle x y -> fle y z -> fle x z.
Proof.
  unfold fle. rewrite !leb_key. intros (? & ? & H1) (? & ? & H2).
  split_and!; [done..|].
  destruct H1 as [H1|H1], H2 as [H2|H2]; rewrite <- ?H2, ?H1; auto.
  left. by eapply key_lt_trans.
Qed.


Lemma intervals_length t ts : length (intervals t ts) = length ts.
Proof. revert t. induction ts as [|o ts IH]; intros t; cbn; [done|]. by rewrite IH. Qed.

Lemma generate_frames_queue_length bs :
  length (generate_frames_queue bs) = length bs - 1.
Proof.
  unfold generate_frames_queue. rewrite intervals_length, length_drop. done.
Qed.

Lemma intervals_starts t ts job : job ∈ intervals t ts -> job.1 ∈ t :: ts.
Proof.
  revert t. induction ts as [|o ts IH]; intros t; cbn.
  { by intros ?%elem_of_nil. }
  intros [->|H]%elem_of_cons; [left|]. right. by apply IH.
Qed.

Lemma intervals_increasing t ts :
  increasing (t :: ts) -> StronglySorted starts_before (frame_of <$> intervals t ts).
Proof.
  unfold increasing. revert t. induction ts as [|o ts IH]; intros t Hs; cbn.
  { constructor. }
  apply StronglySorted_inv in Hs as [Hs Ht]. constructor; [by apply IH|].
  apply Forall_fmap, Forall_forall. intros job Hj. unfold starts_before. cbn.
  apply intervals_starts in Hj. rewrite Forall_forall in Ht. by apply Ht.
Qed.



Lemma StronglySorted_weaken {A} (R1 R2 : relation A) l :
  (forall x y, R1 x y -> R2 x y) -> StronglySorted R1 l -> StronglySorted R2 l.
Proof.
  intros HR. induction 1 as [|x l Hs IH Hx]; constructor; [done|].
  eapply Forall_impl; [exact Hx|]. auto.
Qed.




(** The frames appended so far are those of the finished jobs, in the
    order the jobs finished. *)
Lemma generate_frame_frames shapes images a p p' :
  fr_frames (shared p) = frame_of <$> done_log p ->
  exec (generate_frame shapes images) a p = Some p' ->
  fr_frames (shared p') = frame_of <$> done_log p'.
Proof.
  intros Hf. destruct a as [| |i]; cbn.
  - destruct (to_put p); [done|]. by intros [= <-].
  - destruct (idle p); [done|]. destruct (workq p); [done|]. by intros [= <-].
  - destruct (busy p !! i) as [job|]; [|done]. unfold generate_frame.
    destruct (prune shapes images job.1); intros [= <-]; cbn; [|done].
    by rewrite Hf, fmap_app.
Qed.

Lemma generate_frames_frames shapes images ncpu bs outdir p :
  rtc (pool_step (generate_frame shapes images))
      (generate_frames_init ncpu bs outdir) p ->
  fr_frames (shared p) = frame_of <$> done_log p.
Proof.
  intros Hs. apply rtc_ind_r with (P := fun p => fr_frames (shared p) = frame_of <$> done_log p) in Hs;
    [done|done|].
  intros q r _ [a Ha] IH. eauto using generate_frame_frames.
Qed.


Lemma spec_sort_frames_sorted frames :
  Sorted starts_no_later frames -> spec_sort_frames frames = frames.
Proof.
  induction 1 as [|f l Hs IH Hf]; cbn; [done|].
  fold (spec_sort_frames l). rewrite IH.
  destruct Hf as [|g l Hfg]; cbn; [done|].
  destruct (PrimFloat.ltb (Frame.ts_in g) (Frame.ts_in f)) eqn:E; [|done].
  exfalso. eapply flt_not_fle; [exact E|exact Hfg].
Qed.

(** The loop of lines 172-174 writes the pairs of the frames it meets. *)
Lemma generate_concat_loop (f : list string) (frames : list Frame.t) :
  foldl (fun f frame =>
           f ++ [file_line (Frame.fname frame);
                 duration_line (PrimFloat.sub (Frame.ts_out frame)
                                              (Frame.ts_in frame))])
        f frames
  = f ++ flat_map entry_lines (frame_pair <$> frames).
Proof.
  revert f. induction frames as [|frame frames IH]; intros f; cbn.
  { by rewrite (right_id_L [] (++)). }
  rewrite IH. by rewrite <- (assoc_L (++)).
Qed.


(** C6, as the code has it: nothing checks the number of timestamps. With
    fewer than two, [generate_frames] puts no job, its join returns at
    once with [self.frames] empty, and the run ends in [generate_concat]
    with the [IndexError] of [self.frames[-1]], before any line of the
    manifest is written. *)
Theorem degenerate_timeline_runs (ncpu : nat) (shapes : Element)
    (images : list Image.t) (ts : list float) (outdir : gmap string Element) :
  read_timestamps shapes = Ok ts ->
  length ts < 2 ->
  generate_frames_queue ts = []
  /\ joined (generate_frames_init ncpu ts outdir)
  /\ (forall p, rtc (pool_step (generate_frame shapes images))
                    (generate_frames_init ncpu ts outdir) p ->
                p = generate_frames_init ncpu ts outdir)
  /\ generate_concat (fr_frames (shared (generate_frames_init ncpu ts outdir)))
     = Raise IndexError.
Proof.
  intros _ Hl.
  assert (generate_frames_queue ts = []) as Hq.
  { destruct ts as [|? [|??]]; cbn in *; [done..|lia]. }
  unfold generate_frames_init. rewrite Hq. split_and!; [done|done| |done].
  intros p Hs. remember (pool_init ncpu [] (mkFrames [] outdir)) as p0 eqn:E.
  destruct Hs as [|p q r [a Ha] _]; [done|]. subst p. exfalso.
  destruct a as [| |i]; cbn in Ha; [done| |done]. by destruct ncpu.
Qed.

Lemma reveal_Ok e e' : reveal e = Ok e' <-> revealed e e'.
Proof.
  unfold reveal, revealed, getitem. destruct (attrib e !! "style") as [s|]; cbn.
  - rewrite bind_Ok. split.
    + intros (l & Hl & [= <-]). apply list_remove_Ok in Hl as (l1 & l2 & ? & ? & ->).
      by exists s, l1, l2.
    + intros (? & l1 & l2 & [= <-] & Hs & Hn & ->). exists (l1 ++ l2).
      split; [|done]. apply list_remove_Ok. eauto.
  - split; [done|]. by intros (? & ? & ? & [=] & _).
Qed.

Lemma reveal_lacks_hidden e :
  lacks_hidden e ->
  reveal e = Raise (KeyError "style")
  \/ reveal e = Raise (ValueError "list.remove(x): x not in list").
Proof.
  unfold lacks_hidden, reveal, getitem.
  destruct (attrib e !! "style") as [s|]; cbn; [|by left].
  intros Hn. right. destruct (list_remove_raises _ _ Hn) as [x Hx].
  rewrite Hx. cbn. f_equal. clear -Hx.
  induction (split ";" s) as [|y l IH]; cbn in *; [by injection Hx|].
  case_decide; [done|]. destruct (list_remove hidden l); cbn in *; [done|].
  by apply IH.
Qed.

Lemma make_visible_kids_raises timestamp kids e :
  e ∈ kids -> tag e = svg_g -> revealed_at e timestamp = Ok true ->
  raises (reveal e) -> raises (make_visible_kids timestamp kids).
Proof.
  intros He Ht Hr Hx. induction kids as [|k kids IH]; [by apply elem_of_nil in He|].
  apply elem_of_cons in He as [<-|He]; cbn.
  - rewrite decide_True by done. rewrite Hr. cbn. by apply raises_bind_l.
  - case_decide.
    + apply raises_bind_r. intros [|] _.
      * apply raises_bind_r. intros e' _. apply raises_bind_l. auto.
      * auto.
    + apply raises_bind_l. auto.
Qed.

Lemma elem_of_findall t tree e : e ∈ findall t tree <-> e ∈ children tree /\ tag e = t.
Proof. unfold findall. rewrite list_elem_of_filter. by split; intros []. Qed.

Lemma prune_images_keeps image kids kids' g :
  prune_images image kids = Ok kids' -> g ∈ kids -> tag g <> svg_image -> g ∈ kids'.
Proof.
  revert kids'. induction kids as [|k kids IH]; intros kids' Hp Hg Ht.
  { by apply elem_of_nil in Hg. }
  cbn in Hp. case_decide as Hk.
  - apply elem_of_cons in Hg as [->|Hg]; [done|].
    apply bind_Ok in Hp as (i & _ & Hp). case_decide.
    + apply bind_Ok in Hp as (rest & Hrest & [= <-]). right. eauto.
    + eauto.
  - apply bind_Ok in Hp as (rest & Hrest & [= <-]).
    apply elem_of_cons in Hg as [->|Hg]; [left|right]. eauto.
Qed.

Lemma prune_groups_raises image timestamp kids g i :
  g ∈ kids -> tag g = svg_g -> attrib g !! "image" = Some i -> image = Some i ->
  raises (make_visible (setitem g "display" "inherit") timestamp) ->
  raises (prune_groups image timestamp kids).
Proof.
  intros Hg Ht Hi -> Hx. induction kids as [|k kids IH]; [by apply elem_of_nil in Hg|].
  apply elem_of_cons in Hg as [<-|Hg]; cbn.
  - rewrite decide_True by done. apply raises_bind_r. intros c _.
    case_decide; [|by eexists]. unfold getitem at 1. rewrite Hi. cbn.
    rewrite decide_True by done. by apply raises_bind_l.
  - case_decide.
    + apply raises_bind_r. intros c _. case_decide; [|by eexists].
      apply raises_bind_r. intros j _. case_decide; [|auto].
      apply raises_bind_r. intros e' _. apply raises_bind_l. auto.
    + apply raises_bind_l. auto.
Qed.

(** C10: an annotation that is due at [timestamp] and whose style is
    absent or lacks the exact token [visibility:hidden] makes the reveal
    raise ([KeyError] or the [ValueError] of [list.remove]); with it
    [make_visible] raises, and so does every frame job whose active canvas
    group holds the annotation: the job ends without a frame. *)
Theorem make_visible_requires_hidden (tree e : Element) (timestamp : float)
    (v : string) (r : float) :
  e ∈ findall svg_g tree ->
  attrib e !! "timestamp" = Some v -> to_float v = Ok r -> fle r timestamp ->
  lacks_hidden e ->
  (reveal e = Raise (KeyError "style")
   \/ reveal e = Raise (ValueError "list.remove(x): x not in list"))
  /\ raises (make_visible tree timestamp)
  /\ (forall shapes images i ts_out st,
        tree ∈ findall svg_g shapes ->
        attrib tree !! "image" = Some i ->
        active_image images timestamp = Some i ->
        exists x, generate_frame shapes images (timestamp, ts_out) st = Died st x).
Proof.
  intros He Hv Hr Hle Hl. apply elem_of_findall in He as [He Ht].
  pose proof (reveal_lacks_hidden e Hl) as Hrev.
  assert (raises (reveal e)) as Hx by (destruct Hrev as [->| ->]; by eexists).
  assert (revealed_at e timestamp = Ok true) as Hdue.
  { unfold revealed_at. rewrite Hv, Hr. cbn. by rewrite Hle. }
  assert (forall t : Element, children t = children tree ->
            raises (make_visible t timestamp)) as Hmv.
  { intros t Hc. unfold make_visible. rewrite Hc.
    eapply raises_bind_l, make_visible_kids_raises; eauto. }
  split_and!; [done|by apply Hmv|].
  intros shapes images i ts_out st Hg Hi Ha.
  apply elem_of_findall in Hg as [Hg Htg].
  assert (raises (prune shapes images timestamp)) as [x Hp].
  { unfold prune. apply raises_bind_r. intros kids Hk. apply raises_bind_l.
    eapply prune_groups_raises; [| | | |by apply Hmv]; eauto.
    eapply prune_images_keeps; [exact Hk|done|]. by rewrite Htg. }
  exists x. unfold generate_frame. cbn. by rewrite Hp.
Qed.

Lemma revealed_at_kept timestamp e b :
  tag e = svg_g -> revealed_at e timestamp = Ok b -> spec_kept timestamp e = b.
Proof.
  unfold revealed_at, spec_kept. intros Ht. rewrite decide_True by done.
  destruct (attrib e !! "timestamp") as [v|]; [|by intros [= <-]].
  destruct (to_float v); cbn; [by intros [= <-]|done].
Qed.

Lemma make_visible_kids_Ok timestamp kids out :
  make_visible_kids timestamp kids = Ok out ->
  Forall2 shown (filter (fun e => spec_kept timestamp e = true) kids) out.
Proof.
  revert out. induction kids as [|e kids IH]; intros out; cbn [make_visible_kids].
  { intros [= <-]. constructor. }
  rewrite filter_cons. case_decide as Ht.
  - intros (b & Hb & H)%bind_Ok. rewrite (revealed_at_kept _ _ _ Ht Hb).
    destruct b.
    + apply bind_Ok in H as (e' & He' & H).
      apply bind_Ok in H as (rest & Hrest & [= <-]).
      rewrite decide_True by done. constructor; [|by apply IH].
      unfold shown. rewrite decide_True by done. by apply reveal_Ok.
    + rewrite decide_False by done. by apply IH.
  - intros (rest & Hrest & [= <-])%bind_Ok.
    assert (spec_kept timestamp e = true) as ->.
    { unfold spec_kept. by rewrite decide_False. }
    rewrite decide_True by done. constructor; [|by apply IH].
    unfold shown. by rewrite decide_False.
Qed.

Lemma revealed_at_mono t t' e :
  fle t t' -> revealed_at e t = Ok true -> revealed_at e t' = Ok true.
Proof.
  unfold revealed_at. intros Hle. destruct (attrib e !! "timestamp") as [v|]; [|done].
  destruct (to_float v) as [r|]; cbn; [|done]. intros [= Hr]. f_equal.
  eapply fle_trans; eauto.
Qed.

Lemma make_visible_kids_sublist t t' kids out out' :
  fle t t' ->
  make_visible_kids t kids = Ok out -> make_visible_kids t' kids = Ok out' ->
  out `sublist_of` out'.
Proof.
  intros Hle. revert out out'. induction kids as [|e kids IH]; intros out out'; cbn.
  { by intros [= <-] [= <-]. }
  case_decide as Ht.
  - intros (b & Hb & H)%bind_Ok (b' & Hb' & H')%bind_Ok. destruct b.
    + rewrite (revealed_at_mono _ _ _ Hle Hb) in Hb'. injection Hb' as <-.
      apply bind_Ok in H as (e1 & He1 & H). apply bind_Ok in H' as (e2 & He2 & H').
      apply bind_Ok in H as (rest & Hrest & [= <-]).
      apply bind_Ok in H' as (rest' & Hrest' & [= <-]).
      assert (e1 = e2) as -> by congruence. apply sublist_skip. eauto.
    + destruct b'; [|eauto].
      apply bind_Ok in H' as (e2 & He2 & H').
      apply bind_Ok in H' as (rest' & Hrest' & [= <-]).
      apply sublist_cons. eauto.
  - intros (rest & Hrest & [= <-])%bind_Ok (rest' & Hrest' & [= <-])%bind_Ok.
    apply sublist_skip. eauto.
Qed.

(** C7, as the code has it: inside one canvas group, when [make_visible]
    completes, the children left are, in order, the annotations with a
    timestamp [r <= t], each with the first [visibility:hidden] token
    taken out of its style and the other tokens kept, and the children
    that are not groups, untouched; annotations without a timestamp or
    with [r > t] are gone. So what is left at [t] is still there at every
    later [t']. *)
Theorem make_visible_monotone (tree out out' : Element) (t t' : float) :
  make_visible tree t = Ok out ->
  make_visible tree t' = Ok out' ->
  fle t t' ->
  Forall2 shown (filter (fun e => spec_kept t e = true) (children tree))
          (children out)
  /\ children out `sublist_of` children out'.
Proof.
  unfold make_visible.
  intros (kids & Hk & [= <-])%bind_Ok (kids' & Hk' & [= <-])%bind_Ok Hle. cbn.
  split; [by apply make_visible_kids_Ok|by eapply make_visible_kids_sublist].
Qed.


(** *** The active asset *)

Lemma active_image_app images i timestamp :
  active_image (images ++ [i]) timestamp
  = if covers timestamp i then Some (Image.id i) else active_image images timestamp.
Proof. unfold active_image. by rewrite foldl_app. Qed.

Lemma active_image_last images timestamp :
  active_image images timestamp
  = Image.id <$> last (filter (fun i => covers timestamp i = true) images).
Proof.
  induction images as [|i images IH] using rev_ind; [done|].
  rewrite active_image_app, filter_app, filter_cons, filter_nil.
  destruct (covers timestamp i) eqn:E.
  - rewrite decide_True by done. by rewrite last_snoc.
  - rewrite decide_False by done. by rewrite (right_id_L [] (++)).
Qed.

(** With at most one interval around [t], the order of the list does not
    matter. *)
Lemma active_image_perm (images images' : list Image.t) (t : float) :
  images ≡ₚ images' ->
  length (filter (fun i => covers t i = true) images) <= 1 ->
  active_image images' t = active_image images t.
Proof.
  intros Hp Hl. rewrite !active_image_last.
  assert (filter (fun i => covers t i = true) images'
          ≡ₚ filter (fun i => covers t i = true) images) as Hf by by rewrite Hp.
  destruct (filter _ images) as [|i [|??]]; cbn in Hl; [| |lia].
  - by apply Permutation_nil_r in Hf as ->.
  - by apply Permutation_singleton_r in Hf as ->.
Qed.


(** *** The asset resolver: one fetch *)



Lemma append_cons c s t : String c s +:+ t = String c (s +:+ t).
Proof. reflexivity. Qed.

Lemma append_nil_r s : s +:+ EmptyString = s.
Proof. induction s as [|c s IH]; [done|]. by rewrite append_cons, IH. Qed.

Lemma append_snoc cur c s : (cur +:+ String c EmptyString) +:+ s = cur +:+ String c s.
Proof. induction cur as [|d cur IH]; [done|]. by rewrite !append_cons, IH. Qed.

Lemma no_slash_app s t : no_slash (s +:+ t) = no_slash s && no_slash t.
Proof.
  induction s as [|c s IH]; [done|]. rewrite append_cons. cbn [no_slash].
  rewrite IH. by destruct (Ascii.eqb c "/"%char).
Qed.

Lemma basename_from_no_slash cur s :
  no_slash cur = true -> no_slash (basename_from cur s) = true.
Proof.
  revert cur. induction s as [|c s IH]; intros cur Hc; cbn; [done|].
  destruct (Ascii.eqb c "/"%char) eqn:E; apply IH; [done|].
  rewrite no_slash_app, Hc. cbn. by rewrite E.
Qed.

Lemma basename_from_id cur s :
  no_slash s = true -> basename_from cur s = cur +:+ s.
Proof.
  revert cur. induction s as [|c s IH]; intros cur; cbn.
  { by rewrite append_nil_r. }
  destruct (Ascii.eqb c "/"%char); cbn; [done|]. intros Hs.
  by rewrite IH, append_snoc.
Qed.

Lemma basename_idem s : basename (basename s) = basename s.
Proof.
  unfold basename at 1. rewrite basename_from_id; [done|].
  by apply basename_from_no_slash.
Qed.

Lemma get_update_at_attrib f tree p q :
  (forall e, children (f e) = children e) ->
  option_Forall2
    (fun e e' => if decide (q = p) then e' = f e else attrib e' = attrib e)
    (get_at tree q) (get_at (update_at f tree p) q).
Proof.
  intros Hf. revert tree q. induction p as [|i p IH]; intros tree q; cbn.
  - destruct q as [|j q]; cbn; [by constructor|].
    rewrite Hf. destruct (children tree !! j ≫= _); by constructor.
  - destruct q as [|j q]; cbn; [by constructor|].
    destruct (decide (j = i)) as [->|Hji].
    + rewrite list_lookup_alter_eq. destruct (children tree !! i) as [c|]; cbn;
        [|constructor].
      pose proof (IH c q) as Hc.
      destruct Hc as [e e' He|]; constructor.
      destruct (decide (q = p)) as [->|Hq].
      * rewrite decide_True in He by done. by rewrite decide_True.
      * rewrite decide_False in He by done. by rewrite decide_False by congruence.
    + rewrite list_lookup_alter_ne by done.
      destruct (children tree !! j ≫= _); constructor.
      rewrite decide_False by congruence. done.
Qed.

Lemma image_record_same e e' fname :
  same_but_href e e' ->
  image_record e' fname = image_record e fname.
Proof.
  intros [H _]. unfold image_record, getitem. by rewrite !H.
Qed.

Lemma resolved_from_refl shapes : resolved_from shapes shapes.
Proof.
  intros q. destruct (get_at shapes q); constructor. split; auto.
Qed.

Lemma resolved_from_rewrite shapes current p e href :
  resolved_from shapes current ->
  get_at current p = Some e -> attrib e !! xlink_href = Some href ->
  resolved_from shapes
    (update_at (fun e => setitem e xlink_href (basename href)) current p).
Proof.
  intros Hr He Hh q.
  pose proof (get_update_at_attrib
                (fun e => setitem e xlink_href (basename href)) current p q
                (fun _ => eq_refl)) as Hu.
  specialize (Hr q).
  destruct (get_at shapes q) as [e0|] eqn:E0,
           (get_at current q) as [e1|] eqn:E1,
           (get_at (update_at _ current p) q) as [e2|] eqn:E2;
    inversion Hr as [?? [Hk Hx]|]; inversion Hu as [?? H2|]; subst; constructor.
  case_decide as Hq.
  - subst q e2. assert (e1 = e) as -> by congruence. split; cbn.
    + intros k Hk'. rewrite lookup_insert_ne by done. auto.
    + right. rewrite lookup_insert_eq. rewrite Hh in Hx.
      destruct (attrib e0 !! xlink_href) as [h0|]; [|by destruct Hx].
      cbn in *. destruct Hx as [[= ->]|[= ->]]; [done|]. by rewrite basename_idem.
  - unfold same_but_href. rewrite H2. by split.
Qed.

(** Whatever the schedule, the Assets recorded so far are those of the
    jobs that have finished, in the order they finished. *)
Lemma fetch_images_assets ncpu shapes outdir p :
  rtc (pool_step fetch_image)
      (fetch_images_init ncpu shapes outdir) p ->
  resolved_from shapes (fs_shapes (shared p))
  /\ fs_images (shared p) = omap (asset_of shapes) (done_log p).
Proof.
  intros Hs.
  apply rtc_ind_r with
    (P := fun p => resolved_from shapes (fs_shapes (shared p))
                   /\ fs_images (shared p) = omap (asset_of shapes) (done_log p))
    in Hs; [done|by split; [apply resolved_from_refl|]|].
  clear p Hs. intros p p' _ [a Ha] [Hr Hi]. destruct a as [| |i]; cbn in Ha.
  { destruct (to_put p); [done|]. by injection Ha as <-. }
  { destruct (idle p); [done|]. destruct (workq p); [done|]. by injection Ha as <-. }
  destruct (busy p !! i) as [q|]; [|done]. unfold fetch_image in Ha.
  pose proof (Hr q) as Hq.
  destruct (get_at shapes q) as [e0|] eqn:E0,
           (get_at (fs_shapes (shared p)) q) as [e|] eqn:He;
    inversion Hq as [?? Hsame|]; subst.
  2:{ injection Ha as <-. cbn. split; [done|].
      rewrite omap_app. cbn. unfold asset_of. rewrite E0. cbn.
      by rewrite (right_id_L [] (++)). }
  pose proof Hsame as [Hk Hx]. unfold getitem in Ha at 1.
  destruct (attrib e !! xlink_href) as [href|] eqn:Hh; cbn in Ha;
    [|by injection Ha as <-].
  destruct (requests_get _) as [image|]; [|by injection Ha as <-].
  assert (exists h0, attrib e0 !! xlink_href = Some h0 /\ basename href = basename h0)
    as (h0 & Hh0 & Hb).
  { destruct (attrib e0 !! xlink_href) as [h0|]; [|by destruct Hx].
    exists h0. split; [done|]. destruct Hx as [[= ->]|[= ->]]; [done|].
    apply basename_idem. }
  pose proof (resolved_from_rewrite _ _ _ _ _ Hr He Hh) as Hr'.
  rewrite (image_record_same e0 e) in Ha by done.
  assert (omap (asset_of shapes) [q]
          = match image_record e0 (basename href) with
            | Ok (Some img) => [img]
            | _ => []
            end) as Hq'.
  { cbn. unfold asset_of. rewrite E0. cbn. rewrite Hh0. cbn. rewrite <- Hb.
    by destruct (image_record e0 (basename href)) as [[?|]|]. }
  destruct (image_record e0 (basename href)) as [[img|]|];
    injection Ha as <-; cbn; (split; [done|]); rewrite ?omap_app, ?Hq', ?Hi;
    by rewrite ?(right_id_L [] (++)).
Qed.

(** C8, as the code has it: the active asset is the last entry of
    [self.images] whose interval holds [t], and [self.images] is in the
    order in which the fetch jobs finished. Two runs of the asset resolver
    on a document record the same Assets up to that order, so they choose
    the same active asset whenever at most one interval holds [t]. *)
Theorem active_image_last_wins (ncpu : nat) (shapes : Element)
    (outdir : gmap string string) (p1 p2 : pool path fetch_store) (t : float) :
  rtc (pool_step fetch_image) (fetch_images_init ncpu shapes outdir) p1 ->
  rtc (pool_step fetch_image) (fetch_images_init ncpu shapes outdir) p2 ->
  joined p1 -> joined p2 ->
  fs_images (shared p1) ≡ₚ fs_images (shared p2)
  /\ active_image (fs_images (shared p1)) t
     = Image.id <$> last (filter (fun i => covers t i = true) (fs_images (shared p1)))
  /\ (length (filter (fun i => covers t i = true) (fs_images (shared p1))) <= 1 ->
      active_image (fs_images (shared p2)) t = active_image (fs_images (shared p1)) t).
Proof.
  intros Hs1 Hs2 Hj1 Hj2.
  pose proof (pool_inv_init ncpu (fetch_images_queue [] shapes)
                (mkFetch shapes [] outdir)) as Hi0.
  destruct (joined_all_done _ _ _ (pool_inv_steps _ _ _ _ _ Hi0 Hs1) Hj1) as [Hd1 _].
  destruct (joined_all_done _ _ _ (pool_inv_steps _ _ _ _ _ Hi0 Hs2) Hj2) as [Hd2 _].
  destruct (fetch_images_assets _ _ _ _ Hs1) as [_ H1].
  destruct (fetch_images_assets _ _ _ _ Hs2) as [_ H2].
  assert (fs_images (shared p1) ≡ₚ fs_images (shared p2)) as Hp
    by by rewrite H1, H2, Hd1, Hd2.
  split_and!; [done|apply active_image_last|by apply active_image_perm].
Qed.


(** ** The queue of the asset resolver *)

Lemma image_indices_spec i kids j :
  j ∈ image_indices i kids <->
  exists k e, j = i + k /\ kids !! k = Some e /\ tag e = svg_image.
Proof.
  revert i. induction kids as [|c kids IH]; intros i; cbn.
  { split; [by intros ?%elem_of_nil|]. by intros (k & e & _ & ? & _). }
  case_decide as Ht.
  - rewrite elem_of_cons, IH. split.
    + intros [->|(k & e & -> & Hk & He)].
      * exists 0, c. split_and!; [lia|done..].
      * exists (S k), e. split_and!; [lia|done..].
    + intros ([|k] & e & -> & Hk & He); [left; lia|right].
      exists k, e. split_and!; [lia|done..].
  - rewrite IH. split.
    + intros (k & e & -> & Hk & He). exists (S k), e. split_and!; [lia|done..].
    + intros ([|k] & e & -> & Hk & He); cbn in Hk; [congruence|].
      exists k, e. split_and!; [lia|done..].
Qed.

Lemma image_indices_NoDup i kids : NoDup (image_indices i kids).
Proof.
  revert i. induction kids as [|c kids IH]; intros i; cbn; [constructor|].
  case_decide; [|done]. constructor; [|done].
  rewrite image_indices_spec. intros (k & e & ? & _). lia.
Qed.

Lemma fetch_images_queue_unfold here tree :
  fetch_images_queue here tree
  = ((fun i => here ++ [i]) <$> image_indices 0 (children tree))
    ++ mjoin (imap (fun i e => fetch_images_queue (here ++ [i]) e) (children tree)).
Proof.
  destruct tree as [t a kids]. cbn [fetch_images_queue children]. f_equal.
  enough (forall i,
            (fix each (i : nat) (es : list Element) {struct es} : list path :=
               match es with
               | [] => []
               | e :: es' => fetch_images_queue (here ++ [i]) e ++ each (S i) es'
               end) i kids
            = mjoin (imap (fun k e => fetch_images_queue (here ++ [i + k]) e) kids))
    as H by exact (H 0).
  induction kids as [|e kids IH]; intros i; cbn; [done|].
  rewrite IH, Nat.add_0_r. do 2 f_equal. apply imap_ext. intros k c _. cbn.
  by rewrite Nat.add_succ_r.
Qed.

Lemma fetch_images_queue_spec here tree p :
  p ∈ fetch_images_queue here tree <-> exists q, p = here ++ q /\ image_below tree q.
Proof.
  revert here p. induction tree as [t a kids IH] using Element_forall_ind.
  intros here p. rewrite fetch_images_queue_unfold, elem_of_app, list_elem_of_fmap.
  cbn [children]. unfold image_below. split.
  - intros [(i & -> & Hi)|Hp].
    + apply image_indices_spec in Hi as (k & e & -> & Hk & He).
      exists [k]. split_and!; [done|done|]. exists e. cbn. by rewrite Hk.
    + apply list_elem_of_join in Hp as (l & Hp & Hl).
      apply elem_of_lookup_imap in Hl as (i & c & -> & Hc).
      apply (Forall_lookup_1 _ _ _ _ IH Hc) in Hp as (q & -> & Hq & e & He & Ht).
      exists (i :: q). rewrite <- (assoc_L (++)). split_and!; [done|done|].
      exists e. cbn. by rewrite Hc.
  - intros (q & -> & Hq & e & He & Ht). destruct q as [|i q]; [done|]. cbn in He.
    destruct (kids !! i) as [c|] eqn:Hc; [|done]. cbn in He.
    destruct q as [|j q].
    + left. exists i. split; [done|]. apply image_indices_spec.
      exists i, c. injection He as ->. done.
    + right. apply list_elem_of_join.
      exists (fetch_images_queue (here ++ [i]) c). split.
      * apply (Forall_lookup_1 _ _ _ _ IH Hc). exists (j :: q).
        rewrite <- (assoc_L (++)). split; [done|]. split; [done|]. by exists e.
      * apply elem_of_lookup_imap. by exists i, c.
Qed.

Lemma NoDup_join_imap {A B} (f : nat -> A -> list B) (l : list A) :
  (forall i x, l !! i = Some x -> NoDup (f i x)) ->
  (forall i j x y b, l !! i = Some x -> l !! j = Some y ->
                     b ∈ f i x -> b ∈ f j y -> i = j) ->
  NoDup (mjoin (imap f l)).
Proof.
  revert f. induction l as [|a l IH]; intros f H1 H2; cbn; [constructor|].
  apply NoDup_app. split_and!.
  - by apply (H1 0).
  - intros b Hb Hb'. apply list_elem_of_join in Hb' as (k & Hk & Hl).
    apply elem_of_lookup_imap in Hl as (i & y & -> & Hy).
    by specialize (H2 0 (S i) a y b eq_refl Hy Hb Hk).
  - apply IH.
    + intros i x Hx. by apply (H1 (S i)).
    + intros i j x y b Hx Hy Hb Hb'.
      by specialize (H2 (S i) (S j) x y b Hx Hy Hb Hb') as [= ->].
Qed.

Lemma fetch_images_queue_NoDup here tree : NoDup (fetch_images_queue here tree).
Proof.
  revert here. induction tree as [t a kids IH] using Element_forall_ind.
  intros here. rewrite fetch_images_queue_unfold. cbn [children].
  apply NoDup_app. split_and!.
  - apply NoDup_fmap_2; [|apply image_indices_NoDup].
    intros i j H. by apply app_inv_head in H as [= ->].
  - intros p (i & -> & _)%list_elem_of_fmap Hp.
    apply list_elem_of_join in Hp as (l & Hp & Hl).
    apply elem_of_lookup_imap in Hl as (j & c & -> & _).
    apply fetch_images_queue_spec in Hp as (q & Hp & Hq & _).
    rewrite <- (assoc_L (++)) in Hp. apply app_inv_head in Hp.
    injection Hp as _ <-. done.
  - apply NoDup_join_imap.
    + intros i c Hc. apply (Forall_lookup_1 _ _ _ _ IH Hc).
    + intros i j c d p _ _ Hp Hp'.
      apply fetch_images_queue_spec in Hp as (q & -> & _).
      apply fetch_images_queue_spec in Hp' as (q' & Hp' & _).
      rewrite <- !(assoc_L (++)) in Hp'. apply app_inv_head in Hp'.
      by injection Hp' as ->.
Qed.

(** X1: the asset resolver queues the image elements below the root, and
    each of them once: an image element is fetched wherever it sits in the
    document, the root itself never. *)
Theorem fetch_images_queue_images (shapes : Element) :
  NoDup (fetch_images_queue [] shapes)
  /\ forall p, p ∈ fetch_images_queue [] shapes <-> image_below shapes p.
Proof.
  split; [apply fetch_images_queue_NoDup|]. intros p.
  rewrite fetch_images_queue_spec. split; [by intros (q & -> & H)|].
  intros H. by exists p.
Qed.

(** ** Worker pools: the steps of a run *)

Section PoolSteps.
Context {J Store : Type}.
Variable body : J -> Store -> job_result Store.
Implicit Types (p q r : pool J Store) (jobs : list J) (s : Store).

(** What a step does to the shared fields and to the history. *)
Lemma exec_cases a p p' :
  exec body a p = Some p' ->
  (shared p' = shared p /\ done_log p' = done_log p /\ crash_log p' = crash_log p)
  \/ (exists i j, a = Finish i /\ busy p !! i = Some j
        /\ ((body j (shared p) = Done (shared p')
             /\ done_log p' = done_log p ++ [j] /\ crash_log p' = crash_log p)
            \/ (exists e, body j (shared p) = Died (shared p') e
                  /\ done_log p' = done_log p
                  /\ crash_log p' = crash_log p ++ [(j, e)]))).
Proof.
  destruct a as [| |i]; cbn.
  - destruct (to_put p); [done|]. intros [= <-]. by left.
  - destruct (idle p); [done|]. destruct (workq p); [done|]. intros [= <-]. by left.
  - destruct (busy p !! i) as [j|] eqn:Ej; [|done]. intros H. right. exists i, j.
    split; [done|]. split; [done|].
    destruct (body j (shared p)) as [s'|s' e]; injection H as <-; cbn; [by left|].
    right. by exists e.
Qed.

Lemma exec_crash_mono a p p' :
  exec body a p = Some p' -> crash_log p' = [] -> crash_log p = [].
Proof.
  intros [(_ & _ & ->)|(i & j & _ & _ & [(_ & _ & ->)|(e & _ & _ & ->)])]%exec_cases;
    [done..|]. by intros [_ [=]]%app_nil.
Qed.

(** A job is in one place at a time: with no job queued twice, the job a
    worker holds has not been finished before. *)
Lemma busy_not_done ncpu jobs p i j :
  NoDup jobs -> pool_inv ncpu jobs p -> busy p !! i = Some j -> j ∉ done_log p.
Proof.
  intros Hn [Hj _ _] Hi Hd. rewrite Hj in Hn.
  apply NoDup_app in Hn as (_ & Hn & _). apply (Hn j Hd).
  apply list_elem_of_lookup_2 in Hi. rewrite !elem_of_app. auto.
Qed.


End PoolSteps.


(** ** The document the asset resolver leaves *)

Lemma option_Forall2_weaken {A B} (R R' : A -> B -> Prop) x y :
  (forall a b, R a b -> R' a b) -> option_Forall2 R x y -> option_Forall2 R' x y.
Proof. intros H. destruct 1; constructor; auto. Qed.

Lemma same_node_trans e1 e2 e3 : same_node e1 e2 -> same_node e2 e3 -> same_node e1 e3.
Proof. unfold same_node. intros [-> ->] [-> ->]. done. Qed.

Lemma same_node_sym e1 e2 : same_node e1 e2 -> same_node e2 e1.
Proof. unfold same_node. by intros [-> ->]. Qed.

Lemma same_node_localized e e' : same_node e e' -> same_node (localized e) (localized e').
Proof.
  unfold same_node, localized. intros [Ht Ha]. rewrite Ha.
  destruct (attrib e !! xlink_href); cbn; by rewrite ?Ht, ?Ha.
Qed.

Lemma get_update_at_node f tree p q :
  (forall e, children (f e) = children e) ->
  option_Forall2
    (fun e e' => if decide (q = p) then e' = f e else same_node e e')
    (get_at tree q) (get_at (update_at f tree p) q).
Proof.
  intros Hf. revert tree q. induction p as [|i p IH]; intros tree q; cbn.
  - destruct q as [|j q]; cbn; [by constructor|].
    rewrite Hf. destruct (children tree !! j ≫= _); constructor.
    by rewrite decide_False.
  - destruct q as [|j q]; cbn.
    { constructor. by rewrite decide_False. }
    destruct (decide (j = i)) as [->|Hji].
    + rewrite list_lookup_alter_eq. destruct (children tree !! i) as [c|]; cbn;
        [|constructor].
      pose proof (IH c q) as Hc.
      destruct Hc as [e e' He|]; constructor.
      destruct (decide (q = p)) as [->|Hq].
      * rewrite decide_True in He by done. by rewrite decide_True.
      * rewrite decide_False in He by done. by rewrite decide_False by congruence.
    + rewrite list_lookup_alter_ne by done.
      destruct (children tree !! j ≫= _); constructor.
      rewrite decide_False by congruence. done.
Qed.

(** A document is its tags and attributes, place by place. *)
Lemma tree_ext t1 t2 :
  (forall q, option_Forall2 same_node (get_at t1 q) (get_at t2 q)) -> t1 = t2.
Proof.
  revert t2. induction t1 as [t a kids IH] using Element_forall_ind.
  intros [t' a' kids'] H.
  pose proof (H []) as H0. cbn in H0. inversion H0 as [?? [Ht Ha]|]. cbn in *. subst.
  f_equal. apply list_eq. intros i.
  pose proof (H [i]) as Hi. cbn in Hi.
  destruct (kids !! i) as [c|] eqn:Ec, (kids' !! i) as [c'|] eqn:Ec'; cbn in Hi;
    try by inversion Hi.
  f_equal. apply (Forall_lookup_1 _ _ _ _ IH Ec). intros q.
  specialize (H (i :: q)). cbn in H. by rewrite Ec, Ec' in H.
Qed.

Lemma resolved_unfold tree :
  resolved tree
  = mkElement (tag tree) (attrib tree)
      ((fun e => if decide (tag e = svg_image) then localized (resolved e)
                 else resolved e) <$> children tree).
Proof. by destruct tree. Qed.

Lemma get_at_resolved tree q :
  option_Forall2
    (fun e0 e =>
       same_node (if decide (q <> [] /\ tag e0 = svg_image) then localized e0 else e0) e)
    (get_at tree q) (get_at (resolved tree) q).
Proof.
  revert tree. induction q as [|i q IH]; intros tree.
  { cbn. constructor. rewrite decide_False by by intros [? _].
    by rewrite resolved_unfold. }
  cbn [get_at]. rewrite resolved_unfold. cbn [children]. rewrite list_lookup_fmap.
  destruct (children tree !! i) as [c|]; cbn [fmap option_fmap option_map mbind option_bind];
    [|constructor].
  assert (get_at (if decide (tag c = svg_image) then localized (resolved c)
                  else resolved c) q
          = if decide (q = []) then
              Some (if decide (tag c = svg_image) then localized (resolved c)
                    else resolved c)
            else get_at (resolved c) q) as ->.
  { destruct q as [|j q]; [done|]. rewrite (decide_False (P := j :: q = [])) by done.
    case_decide; [|done]. cbn. unfold localized.
    by destruct (attrib (resolved c) !! xlink_href). }
  destruct (decide (q = [])) as [->|Hq].
  - cbn. constructor. pose proof (IH c) as Hc. cbn in Hc.
    inversion Hc as [?? Hn|]; subst. rewrite decide_False in Hn by by intros [? _].
    destruct (decide (tag c = svg_image)) as [Ht|Ht].
    + rewrite decide_True by done. by apply same_node_localized.
    + rewrite decide_False by by intros [_ ?]. done.
  - eapply option_Forall2_weaken; [|apply IH]. intros e0 e. cbn.
    destruct (decide (tag e0 = svg_image)) as [Ht|Ht].
    + by rewrite !decide_True.
    + by rewrite !decide_False by by intros [_ ?].
Qed.

(** What a job that runs to its end has done. *)
Lemma fetch_image_Done p st st' :
  fetch_image p st = Done st' ->
  match get_at (fs_shapes st) p with
  | None => st' = st
  | Some e =>
      exists href image r,
        attrib e !! xlink_href = Some href
        /\ requests_get (baseurl +:+ "/" +:+ href) = Ok image
        /\ image_record e (basename href) = Ok r
        /\ st' = mkFetch
                   (update_at (fun e => setitem e xlink_href (basename href))
                      (fs_shapes st) p)
                   (fs_images st ++ option_list r)
                   (<[basename href := content image]> (fs_outdir st))
  end.
Proof.
  unfold fetch_image, getitem.
  destruct (get_at (fs_shapes st) p) as [e|]; [|by intros [= <-]].
  destruct (attrib e !! xlink_href) as [href|]; [|done].
  destruct (requests_get _) as [image|] eqn:Hr; [|done].
  destruct (image_record e (basename href)) as [[img|]|] eqn:Hi; [..|done];
    intros [= <-]; exists href, image; eexists; split_and!; try done.
  cbn. by rewrite (right_id_L [] (++)).
Qed.

Lemma decide_elem_snoc {A} (q j : path) (l : list path) (x y : A) :
  q <> j ->
  (if decide (q ∈ l ++ [j]) then x else y) = (if decide (q ∈ l) then x else y).
Proof.
  intros Hq. destruct (decide (q ∈ l)) as [H|H].
  - rewrite decide_True; [done|]. apply elem_of_app. by left.
  - rewrite decide_False; [done|]. rewrite elem_of_app, list_elem_of_singleton.
    by intros [?|?].
Qed.

Lemma resolved_so_far_exec ncpu shapes a p p' :
  pool_inv ncpu (fetch_images_queue [] shapes) p ->
  resolved_so_far shapes p ->
  exec fetch_image a p = Some p' -> crash_log p' = [] ->
  resolved_so_far shapes p'.
Proof.
  intros Hi Hr Ha Hc. unfold resolved_so_far in *.
  destruct (exec_cases _ _ _ _ Ha)
    as [(-> & -> & _)|(i & j & _ & Hj & [(Hb & -> & _)|(e & _ & _ & Hc')])];
    [done| |by rewrite Hc' in Hc; apply app_nil in Hc as [_ ?]].
  pose proof (busy_not_done _ _ _ _ _ (fetch_images_queue_NoDup [] shapes) Hi Hj) as Hn.
  apply fetch_image_Done in Hb. intros q. specialize (Hr q).
  destruct (get_at (fs_shapes (shared p)) j) as [e|] eqn:He.
  - destruct Hb as (href & image & r & Hh & _ & _ & ->). cbn [fs_shapes].
    pose proof (get_update_at_node (fun e => setitem e xlink_href (basename href))
                  (fs_shapes (shared p)) j q (fun _ => eq_refl)) as Hu.
    destruct (decide (q = j)) as [->|Hq].
    + rewrite He in Hr, Hu. inversion Hr as [e0 ? Hn0|]; subst.
      inversion Hu as [?? Hu'|]; subst. constructor.
      rewrite decide_True by (apply elem_of_app; right; left).
      rewrite decide_False in Hn0 by done.
      destruct Hn0 as [Ht Ha']. unfold localized. rewrite <- Ha', Hh.
      split; cbn; [done|]. by rewrite Ha'.
    + destruct Hr as [e0 e1 Hn0|]; inversion Hu as [?? Hu'|]; subst; constructor.
      rewrite decide_elem_snoc by done.
      by eapply same_node_trans.
  - rewrite Hb. destruct (decide (q = j)) as [->|Hq].
    + rewrite He in Hr |- *. inversion Hr. constructor.
    + eapply option_Forall2_weaken; [|exact Hr]. intros e0 e1. cbn.
      by rewrite decide_elem_snoc.
Qed.

Lemma fetch_images_resolved_so_far ncpu shapes outdir p :
  rtc (pool_step fetch_image) (fetch_images_init ncpu shapes outdir) p ->
  crash_log p = [] -> resolved_so_far shapes p.
Proof.
  intros Hs.
  pose proof (pool_inv_init ncpu (fetch_images_queue [] shapes)
                (mkFetch shapes [] outdir)) as Hi0.
  apply rtc_ind_r with
    (P := fun p => crash_log p = [] -> resolved_so_far shapes p) in Hs; [done| |].
  - intros _ q. cbn. destruct (get_at shapes q); constructor.
    rewrite decide_False by apply not_elem_of_nil. done.
  - intros q r Hq [a Ha] IH Hc.
    eapply resolved_so_far_exec; [|apply IH|exact Ha|exact Hc].
    + eapply pool_inv_steps; [exact Hi0|exact Hq].
    + by eapply exec_crash_mono.
Qed.

(** X2: whatever the schedule, when the join of the asset phase returns the
    document in memory is the parsed document with the reference of every
    image element below the root cut down to its last segment; nothing
    else has changed, and two runs end with the same document. *)
Theorem fetch_images_resolved (ncpu : nat) (shapes : Element)
    (outdir : gmap string string) (p : pool path fetch_store) :
  rtc (pool_step fetch_image) (fetch_images_init ncpu shapes outdir) p ->
  joined p ->
  fs_shapes (shared p) = resolved shapes.
Proof.
  intros Hs Hj.
  pose proof (pool_inv_init ncpu (fetch_images_queue [] shapes)
                (mkFetch shapes [] outdir)) as Hi0.
  destruct (joined_all_done _ _ _ (pool_inv_steps _ _ _ _ _ Hi0 Hs) Hj)
    as (Hd & Hc & _).
  pose proof (fetch_images_resolved_so_far _ _ _ _ Hs Hc) as Hr.
  symmetry. apply tree_ext. intros q. specialize (Hr q).
  pose proof (get_at_resolved shapes q) as Hq.
  destruct (get_at shapes q) as [e0|] eqn:E0;
    inversion Hr as [?? Hn|]; inversion Hq as [?? Hn'|]; subst; constructor.
  eapply same_node_trans; [apply same_node_sym; exact Hn'|].
  assert (q ∈ done_log p <-> q <> [] /\ tag e0 = svg_image) as Hiff.
  { rewrite Hd, fetch_images_queue_spec. unfold image_below. split.
    - intros (? & -> & ? & e' & He' & ?). cbn in *. split; [done|]. congruence.
    - intros [? ?]. exists q. split; [done|]. split; [done|]. by exists e0. }
  destruct (decide (q ∈ done_log p)) as [H|H].
  - by rewrite decide_True by by apply Hiff.
  - by rewrite decide_False by by rewrite <- Hiff.
Qed.

(** ** The asset phase as a whole *)

Lemma image_record_attrib e e' fname :
  attrib e' = attrib e -> image_record e' fname = image_record e fname.
Proof. intros H. unfold image_record, getitem. by rewrite !H. Qed.

(** The element of a job that a worker holds is still as it was parsed. *)
Lemma fetch_image_parsed ncpu shapes p i j :
  pool_inv ncpu (fetch_images_queue [] shapes) p ->
  resolved_so_far shapes p ->
  busy p !! i = Some j ->
  exists e0 e,
    get_at shapes j = Some e0 /\ get_at (fs_shapes (shared p)) j = Some e
    /\ attrib e = attrib e0.
Proof.
  intros Hi Hr Hj.
  pose proof (busy_not_done _ _ _ _ _ (fetch_images_queue_NoDup [] shapes) Hi Hj) as Hn.
  pose proof (busy_job _ _ _ _ _ Hi Hj) as Hq.
  apply fetch_images_queue_spec in Hq as (q & E & _ & e0 & He0 & _). cbn in E. subst q.
  specialize (Hr j). rewrite He0 in Hr. inversion Hr as [?? Hn0|]; subst.
  rewrite decide_False in Hn0 by done. exists e0. eexists. split; [done|].
  split; [done|]. apply Hn0.
Qed.


Lemma fetched_so_far_init ncpu shapes outdir :
  fetched_so_far shapes outdir (fetch_images_init ncpu shapes outdir).
Proof.
  split_and!; cbn.
  - intros q. cbn. destruct (get_at shapes q); constructor.
    rewrite decide_False by apply not_elem_of_nil. done.
  - by intros q e h ?%elem_of_nil.
  - done.
  - constructor.
Qed.

Lemma fetched_so_far_exec ncpu shapes outdir a p p' :
  pool_inv ncpu (fetch_images_queue [] shapes) p ->
  fetched_so_far shapes outdir p ->
  exec fetch_image a p = Some p' -> crash_log p' = [] ->
  fetched_so_far shapes outdir p'.
Proof.
  intros Hi (Hr & Hst & Hun & Hcf) Ha Hc.
  split; [by eapply resolved_so_far_exec|].
  destruct (exec_cases _ _ _ _ Ha)
    as [(-> & -> & _)|(i & j & _ & Hj & [(Hb & -> & _)|(e & _ & _ & Hc')])];
    [done| |by rewrite Hc' in Hc; apply app_nil in Hc as [_ ?]].
  destruct (fetch_image_parsed _ _ _ _ _ Hi Hr Hj) as (e0 & e & He0 & He & Hattr).
  apply fetch_image_Done in Hb. rewrite He in Hb.
  destruct Hb as (href & image & r & Hh & Hreq & Hrec & ->). cbn [fs_outdir].
  rewrite Hattr in Hh. split_and!.
  - intros q e1 h Hq He1 Hh1.
    destruct (decide (basename h = basename href)) as [E|E].
    + exists j, e0, href, image. split_and!; try done.
      * apply elem_of_app. right. left.
      * rewrite E. apply lookup_insert_eq.
    + apply elem_of_app in Hq as [Hq|Hq%list_elem_of_singleton]; [|congruence].
      destruct (Hst q e1 h Hq He1 Hh1) as (q' & e' & h' & im & ? & ? & ? & ? & ? & ?).
      exists q', e', h', im. split_and!; try done.
      * apply elem_of_app. by left.
      * by rewrite lookup_insert_ne by done.
  - intros k Hk. unfold image_names in Hk. rewrite omap_app in Hk. cbn in Hk.
    rewrite He0 in Hk. cbn in Hk. rewrite Hh in Hk. cbn in Hk.
    apply not_elem_of_app in Hk as [Hk Hk']. rewrite list_elem_of_singleton in Hk'.
    rewrite lookup_insert_ne by done. by apply Hun.
  - rewrite Forall_app. split; [done|]. constructor; [|constructor].
    unfold can_fetch. rewrite He0, Hh, Hreq. cbn.
    by rewrite <- (image_record_attrib e0 e), Hrec by done.
Qed.

Lemma fetch_images_fetched_so_far ncpu shapes outdir p :
  rtc (pool_step fetch_image) (fetch_images_init ncpu shapes outdir) p ->
  crash_log p = [] -> fetched_so_far shapes outdir p.
Proof.
  intros Hs.
  pose proof (pool_inv_init ncpu (fetch_images_queue [] shapes)
                (mkFetch shapes [] outdir)) as Hi0.
  apply rtc_ind_r with
    (P := fun p => crash_log p = [] -> fetched_so_far shapes outdir p) in Hs;
    [done|intros _; apply fetched_so_far_init|].
  intros q r Hq [a Ha] IH Hc.
  eapply fetched_so_far_exec; [|apply IH|exact Ha|exact Hc].
  - eapply pool_inv_steps; [exact Hi0|exact Hq].
  - by eapply exec_crash_mono.
Qed.



(** Where a job writes. *)
Lemma fetch_image_outdir j st :
  let st' := match fetch_image j st with Done s | Died s _ => s end in
  fs_outdir st' = fs_outdir st
  \/ exists href c, fs_outdir st' = <[basename href := c]> (fs_outdir st).
Proof.
  unfold fetch_image, getitem. destruct (get_at (fs_shapes st) j) as [e|]; [|by left].
  destruct (attrib e !! xlink_href) as [href|]; [|by left].
  destruct (requests_get _) as [image|]; [|by left].
  right. exists href, (content image).
  by destruct (image_record e (basename href)) as [[img|]|].
Qed.

(** X5: the files the asset phase adds sit in the output directory itself:
    whatever directories a reference names, the name of the file has no
    slash. *)
Theorem fetch_images_flat (ncpu : nat) (shapes : Element)
    (outdir : gmap string string) (p : pool path fetch_store) (k : string) :
  rtc (pool_step fetch_image) (fetch_images_init ncpu shapes outdir) p ->
  is_Some (fs_outdir (shared p) !! k) ->
  is_Some (outdir !! k) \/ no_slash k = true.
Proof.
  intros Hs.
  apply rtc_ind_r with
    (P := fun p => is_Some (fs_outdir (shared p) !! k) ->
                   is_Some (outdir !! k) \/ no_slash k = true) in Hs;
    [done|by left|].
  clear p Hs. intros p p' _ [a Ha] IH.
  destruct (exec_cases _ _ _ _ Ha)
    as [(-> & _)|(i & j & _ & Hj & Hb)]; [done|].
  pose proof (fetch_image_outdir j (shared p)) as Ho. cbn in Ho.
  assert (match fetch_image j (shared p) with Done s | Died s _ => s end = shared p')
    as E by (destruct Hb as [(-> & _)|(e & -> & _)]; done).
  rewrite E in Ho. destruct Ho as [->|(href & c & ->)]; [done|].
  destruct (decide (k = basename href)) as [->|Hk].
  - intros _. right. by apply basename_from_no_slash.
  - by rewrite lookup_insert_ne.
Qed.

(** ** The timeline: errors, and the asset phase before it *)

Lemma to_floats_Raise l x :
  to_floats l = Raise x <->
  exists l1 v l2,
    l = l1 ++ v :: l2 /\ Forall (fun u => is_Ok (to_float u) = true) l1
    /\ to_float v = Raise x.
Proof.
  induction l as [|u l IH]; cbn.
  { split; [done|]. by intros ([|??] & ? & ? & ? & _). }
  destruct (to_float u) as [y|e] eqn:Hu; cbn.
  - assert ((to_floats l ≫= (fun xs => Ok (y :: xs))) = Raise x <-> to_floats l = Raise x)
      as H by (destruct (to_floats l); cbn; split; congruence).
    rewrite H, IH. split.
    + intros (l1 & v & l2 & -> & Hl1 & Hv). exists (u :: l1), v, l2.
      split_and!; [done| |done]. constructor; [by rewrite Hu|done].
    + intros ([|u' l1] & v & l2 & E & Hl1 & Hv); simplify_eq/=; [congruence|].
      apply Forall_cons in Hl1 as [_ Hl1]. eauto 6.
  - split.
    + intros [= ->]. by exists [], u, l.
    + intros ([|u' l1] & v & l2 & E & Hl1 & Hv); simplify_eq/=; [congruence|].
      apply Forall_cons in Hl1 as [Hu' _]. by rewrite Hu in Hu'.
Qed.

(** X7: [read_timestamps] raises exactly when [float()] rejects one of the
    [in], [out] and [timestamp] values below the root, and then with the
    exception of the first value rejected, in document order. *)
Theorem read_timestamps_raises (shapes : Element) (x : exn) :
  read_timestamps shapes = Raise x <->
  exists l1 v l2,
    flat_map stamp_strings (descendants shapes) = l1 ++ v :: l2
    /\ Forall (fun u => is_Ok (to_float u) = true) l1
    /\ to_float v = Raise x.
Proof.
  rewrite read_timestamps_floats, <- to_floats_Raise.
  by destruct (to_floats _).
Qed.

Lemma same_but_href_stamps e e' : same_but_href e e' -> stamp_strings e' = stamp_strings e.
Proof.
  intros [H _]. unfold stamp_strings. cbn. by rewrite !H by by unfold xlink_href.
Qed.

Lemma resolved_from_children t0 t :
  resolved_from t0 t -> Forall2 resolved_from (children t0) (children t).
Proof.
  intros Hr. apply Forall2_lookup. intros i.
  pose proof (Hr [i]) as Hi. cbn in Hi.
  destruct (children t0 !! i) as [c0|] eqn:E0, (children t !! i) as [c|] eqn:E;
    cbn in Hi; try (by inversion Hi); constructor.
  intros q. specialize (Hr (i :: q)). cbn in Hr. by rewrite E0, E in Hr.
Qed.

Lemma resolved_from_stamps t0 t :
  resolved_from t0 t ->
  flat_map stamp_strings (elements t) = flat_map stamp_strings (elements t0).
Proof.
  revert t. induction t0 as [tg a kids IH] using Element_forall_ind. intros t Hr.
  rewrite !elements_unfold. cbn [flat_map]. f_equal.
  - pose proof (Hr []) as H0. cbn in H0. inversion H0; subst.
    by apply same_but_href_stamps.
  - apply resolved_from_children in Hr. cbn [children] in Hr.
    unfold descendants. cbn [children].
    induction Hr as [|c0 c kids0 kids' Hc Hk IHk]; [done|]. cbn.
    rewrite !flat_map_app. apply Forall_cons in IH as [IHc IH].
    f_equal; [by apply IHc|by apply IHk].
Qed.

Lemma resolved_from_stamps_below t0 t :
  resolved_from t0 t ->
  flat_map stamp_strings (descendants t) = flat_map stamp_strings (descendants t0).
Proof.
  intros Hr%resolved_from_children. unfold descendants.
  induction Hr as [|c0 c kids0 kids' Hc Hk IHk]; [done|]. cbn.
  rewrite !flat_map_app. f_equal; [by apply resolved_from_stamps|done].
Qed.

Lemma read_timestamps_resolved_from t0 t :
  resolved_from t0 t -> read_timestamps t = read_timestamps t0.
Proof.
  intros Hr. by rewrite !read_timestamps_floats, (resolved_from_stamps_below _ _ Hr).
Qed.

(** X6: the asset phase does not move the timeline: at any moment of any
    run, [read_timestamps] on the document in memory gives what it gives
    on the document as parsed. *)
Theorem read_timestamps_after_fetch (ncpu : nat) (shapes : Element)
    (outdir : gmap string string) (p : pool path fetch_store) :
  rtc (pool_step fetch_image) (fetch_images_init ncpu shapes outdir) p ->
  read_timestamps (fs_shapes (shared p)) = read_timestamps shapes.
Proof.
  intros Hs. destruct (fetch_images_assets _ _ _ _ Hs) as [Hr _].
  by apply read_timestamps_resolved_from.
Qed.

(** ** The frame synthesizer: what a frame holds *)

Lemma svg_image_not_g : svg_image <> svg_g.
Proof. done. Qed.

Lemma prune_images_Ok image kids kids' :
  prune_images image kids = Ok kids' ->
  Forall (fun e => tag e = svg_image ->
            exists i, image = Some i /\ attrib e !! "id" = Some i
                      /\ attrib e !! "style" = Some "") kids'
  /\ filter (fun e => tag e <> svg_image) kids'
     = filter (fun e => tag e <> svg_image) kids.
Proof.
  revert kids'. induction kids as [|k kids IH]; intros kids'; cbn [prune_images].
  { intros [= <-]. by split. }
  rewrite (filter_cons _ k). case_decide as Hk.
  - intros (i & Hi & Hp)%bind_Ok. rewrite decide_False by by intros ?.
    unfold getitem in Hi. destruct (attrib k !! "id") as [i'|] eqn:Hid; [|done].
    injection Hi as ->. case_decide as Him; [|by apply IH].
    apply bind_Ok in Hp as (rest & Hrest & [= <-]).
    destruct (IH _ Hrest) as [IH1 IH2]. split.
    + constructor; [|done]. intros _. exists i. cbn. split; [done|].
      by rewrite lookup_insert_ne, lookup_insert_eq by done.
    + rewrite filter_cons. by rewrite decide_False by by intros ?.
  - intros (rest & Hrest & [= <-])%bind_Ok. destruct (IH _ Hrest) as [IH1 IH2]. split.
    + by constructor.
    + rewrite filter_cons, !decide_True by done. by f_equal.
Qed.

Lemma make_visible_node tree timestamp out :
  make_visible tree timestamp = Ok out -> same_node tree out.
Proof. unfold make_visible. by intros (kids & _ & [= <-])%bind_Ok. Qed.

Lemma prune_groups_Ok image timestamp kids kids' :
  prune_groups image timestamp kids = Ok kids' ->
  Forall (fun g => tag g = svg_g ->
            exists i, image = Some i /\ attrib g !! "class" = Some "canvas"
                      /\ attrib g !! "image" = Some i
                      /\ attrib g !! "display" = Some "inherit") kids'
  /\ filter (fun e => tag e <> svg_g) kids' = filter (fun e => tag e <> svg_g) kids.
Proof.
  revert kids'. induction kids as [|k kids IH]; intros kids'; cbn [prune_groups].
  { intros [= <-]. by split. }
  rewrite (filter_cons _ k). case_decide as Hk.
  - intros (c & Hc & Hp)%bind_Ok. rewrite decide_False by by intros ?.
    unfold getitem in Hc. destruct (attrib k !! "class") as [c'|] eqn:Hcl; [|done].
    injection Hc as ->. case_decide as Hcan; [subst c|done].
    apply bind_Ok in Hp as (i & Hi & Hp).
    unfold getitem in Hi. destruct (attrib k !! "image") as [i'|] eqn:Him; [|done].
    injection Hi as ->. case_decide as Hact; [|by apply IH].
    apply bind_Ok in Hp as (g & Hg & Hp). apply bind_Ok in Hp as (rest & Hrest & [= <-]).
    destruct (IH _ Hrest) as [IH1 IH2]. apply make_visible_node in Hg as [Ht Ha].
    cbn in Ht, Ha. split.
    + constructor; [|done]. intros _. exists i. rewrite Ha.
      by rewrite !lookup_insert_ne, lookup_insert_eq by done.
    + rewrite filter_cons. by rewrite decide_False by (rewrite Ht; by intros ?).
  - intros (rest & Hrest & [= <-])%bind_Ok. destruct (IH _ Hrest) as [IH1 IH2]. split.
    + by constructor.
    + rewrite filter_cons, !decide_True by done. by f_equal.
Qed.

Lemma filter_and {A} (P Q : A -> Prop) `{!forall x, Decision (P x)}
    `{!forall x, Decision (Q x)} (l : list A) :
  filter (fun x => P x /\ Q x) l = filter P (filter Q l).
Proof.
  induction l as [|x l IH]; [done|]. rewrite !filter_cons.
  destruct (decide (Q x)) as [HQ|HQ].
  - rewrite filter_cons. destruct (decide (P x)) as [HP|HP].
    + rewrite decide_True by done. by f_equal.
    + by rewrite decide_False by by intros [? _].
  - by rewrite decide_False by by intros [_ ?].
Qed.

Lemma filter_Forall_id {A} (P : A -> Prop) `{!forall x, Decision (P x)} (l : list A) :
  Forall P l -> filter P l = l.
Proof.
  induction 1 as [|x l Hx Hl IH]; [done|].
  rewrite filter_cons, decide_True by done. by f_equal.
Qed.

Lemma filter_comm {A} (P Q : A -> Prop) `{!forall x, Decision (P x)}
    `{!forall x, Decision (Q x)} (l : list A) :
  filter P (filter Q l) = filter Q (filter P l).
Proof.
  induction l as [|x l IH]; [done|]. rewrite !filter_cons.
  destruct (decide (Q x)), (decide (P x)); rewrite ?filter_cons;
    rewrite ?decide_True, ?decide_False by done; by f_equal.
Qed.

(** X8: a frame shows the active asset and nothing of another slide: in
    the document of a frame that [generate_frame] writes, every image
    child of the root is the active image, made visible; every group is a
    canvas of the active image, displayed; the other children of the root
    are all there, as they were. When no image is active, they are all
    that is left. *)
Theorem prune_active_only (shapes : Element) (images : list Image.t)
    (timestamp : float) (doc : Element) :
  prune shapes images timestamp = Ok doc ->
  same_node shapes doc
  /\ (forall e, e ∈ findall svg_image doc ->
        exists i, active_image images timestamp = Some i
                  /\ attrib e !! "id" = Some i /\ attrib e !! "style" = Some "")
  /\ (forall g, g ∈ findall svg_g doc ->
        exists i, active_image images timestamp = Some i
                  /\ attrib g !! "class" = Some "canvas"
                  /\ attrib g !! "image" = Some i
                  /\ attrib g !! "display" = Some "inherit")
  /\ backdrop doc = backdrop shapes
  /\ (active_image images timestamp = None -> children doc = backdrop shapes).
Proof.
  unfold prune. intros (kids1 & H1 & H)%bind_Ok.
  apply bind_Ok in H as (kids2 & H2 & [= <-]).
  apply prune_images_Ok in H1 as [Hi1 Hf1]. apply prune_groups_Ok in H2 as [Hg2 Hf2].
  rewrite Forall_forall in Hi1, Hg2.
  assert (forall e, e ∈ kids2 -> tag e = svg_image ->
            exists i, active_image images timestamp = Some i
                      /\ attrib e !! "id" = Some i /\ attrib e !! "style" = Some "")
    as Himg.
  { intros e He Ht. apply Hi1; [|done].
    assert (e ∈ filter (fun e => tag e <> svg_g) kids2) as Hin.
    { apply list_elem_of_filter. split; [|done]. rewrite Ht. apply svg_image_not_g. }
    rewrite Hf2 in Hin. by apply list_elem_of_filter in Hin as [_ ?]. }
  assert (backdrop (mkElement (tag shapes) (attrib shapes) kids2) = backdrop shapes)
    as Hback.
  { unfold backdrop. cbn [children]. rewrite !filter_and, Hf2.
    rewrite (filter_comm _ _ kids1), Hf1. apply filter_comm. }
  split_and!; [done| | |done|].
  - intros e [He Ht]%elem_of_findall. by apply Himg.
  - intros g [Hg Ht]%elem_of_findall. by apply Hg2.
  - intros Hnone. rewrite <- Hback. unfold backdrop. cbn [children].
    symmetry. apply filter_Forall_id, Forall_forall. intros e He. split; intros Ht.
    + destruct (Himg e He Ht) as (i & Hi & _). congruence.
    + destruct (Hg2 e He Ht) as (i & Hi & _). congruence.
Qed.

(** ** The frame synthesizer: documents it cannot render *)






(** ** The frame synthesizer: the files and the manifest *)




Lemma manifest_length frames :
  length (flat_map entry_lines (frame_pair <$> frames)) = 2 * length frames.
Proof. induction frames as [|f frames IH]; cbn; [done|]. rewrite IH. lia. Qed.

Lemma manifest_lookup frames i frame :
  frames !! i = Some frame ->
  flat_map entry_lines (frame_pair <$> frames) !! (2 * i)
  = Some (file_line (Frame.fname frame))
  /\ flat_map entry_lines (frame_pair <$> frames) !! (2 * i + 1)
     = Some (duration_line (PrimFloat.sub (Frame.ts_out frame) (Frame.ts_in frame))).
Proof.
  revert i. induction frames as [|f frames IH]; intros i; [done|].
  destruct i as [|i]; cbn.
  - by intros [= ->].
  - intros Hi. replace (i + S (i + 0)) with (S (2 * i)) by lia.
    replace (S (2 * i) + 1) with (S (2 * i + 1)) by lia. cbn. by apply IH.
Qed.

(** X12: the frame phase and the manifest builder together: when the join of
    [generate_frames] has returned on two timestamps or more,
    [generate_concat] does not raise; it writes [2 (n - 1) + 1] lines for
    [n] timestamps, and every interval has its file line with the line of
    its duration right after it. *)
Theorem generate_concat_after_frames (ncpu : nat) (shapes : Element)
    (images : list Image.t) (bs : list float) (outdir : gmap string Element)
    (p : pool (float * float) frame_store) :
  rtc (pool_step (generate_frame shapes images))
      (generate_frames_init ncpu bs outdir) p ->
  joined p -> 2 <= length bs ->
  exists lines,
    generate_concat (fr_frames (shared p)) = Ok lines
    /\ length lines = 2 * (length bs - 1) + 1
    /\ forall job, job ∈ generate_frames_queue bs ->
         exists i,
           lines !! (2 * i) = Some (file_line (frame_png job.1))
           /\ lines !! (2 * i + 1)
              = Some (duration_line (PrimFloat.sub job.2 job.1)).
Proof.
  intros Hs Hj Hl.
  pose proof (pool_inv_init ncpu (generate_frames_queue bs) (mkFrames [] outdir))
    as Hi0.
  destruct (joined_all_done _ _ _ (pool_inv_steps _ _ _ _ _ Hi0 Hs) Hj) as (Hd & _).
  pose proof (generate_frames_frames _ _ _ _ _ _ Hs) as Hf.
  assert (length (fr_frames (shared p)) = length bs - 1) as Hlen
    by by rewrite Hf, length_fmap, Hd, generate_frames_queue_length.
  unfold generate_concat. rewrite generate_concat_loop. cbn [app].
  destruct (last (fr_frames (shared p))) as [frame|] eqn:Hlast.
  2:{ apply last_None in Hlast. rewrite Hlast in Hlen. cbn in Hlen. lia. }
  eexists. split; [done|]. split.
  - rewrite length_app, manifest_length, Hlen. done.
  - intros job Hjob. rewrite <- Hd in Hjob.
    apply (list_elem_of_fmap_2 frame_of) in Hjob. rewrite <- Hf in Hjob.
    apply list_elem_of_lookup in Hjob as [i Hi]. exists i.
    destruct (manifest_lookup _ _ _ Hi) as [H1 H2].
    split; (rewrite lookup_app_l; [done|]); rewrite manifest_length;
      apply lookup_lt_Some in Hi; lia.
Qed.

(** ** The frame synthesizer: a frame and its interval *)

Lemma fle_refl x : is_nan x = false -> fle x x.
Proof. intros H. unfold fle. rewrite leb_key. auto. Qed.

Lemma eqb_fle_l b y c : PrimFloat.eqb b y = true -> fle b c -> fle y c.
Proof.
  unfold fle. rewrite eqb_key, !leb_key. intros (_ & Hy & E) (_ & Hc & Hk).
  rewrite <- E. auto.
Qed.

Lemma eqb_fle_r b y c : PrimFloat.eqb b y = true -> fle c b -> fle c y.
Proof.
  unfold fle. rewrite eqb_key, !leb_key. intros (_ & Hy & E) (Hc & _ & Hk).
  rewrite <- E. auto.
Qed.

Lemma leb_nan y x : is_nan y = true -> PrimFloat.leb y x = false.
Proof.
  intros Hy. destruct (PrimFloat.leb y x) eqn:E; [|done].
  apply leb_key in E as (? & _). congruence.
Qed.

Lemma ltb_nan x y : is_nan y = true -> PrimFloat.ltb x y = false.
Proof.
  intros Hy. destruct (PrimFloat.ltb x y) eqn:E; [|done].
  apply ltb_key in E as (_ & ? & _). congruence.
Qed.

Lemma not_fle_leb y x : ~ fle y x -> PrimFloat.leb y x = false.
Proof. unfold fle. by destruct (PrimFloat.leb y x). Qed.

Lemma not_flt_ltb x y : ~ flt x y -> PrimFloat.ltb x y = false.
Proof. unfold flt. by destruct (PrimFloat.ltb x y). Qed.

(** Inside an interval, comparing with a settled time gives what it gives
    at the start of the interval. *)
Lemma leb_settled t t' x y :
  fle t x -> flt x t' -> settled t t' y -> PrimFloat.leb y x = PrimFloat.leb y t.
Proof.
  intros Htx Hxt [Hn|[Hy|Hy]].
  - by rewrite !leb_nan.
  - transitivity true; [|symmetry]; [|exact Hy]. by eapply fle_trans.
  - rewrite !not_fle_leb; [done|..].
    + eapply flt_not_fle, flt_fle_trans; [|exact Hy]. by eapply fle_flt_trans.
    + eapply flt_not_fle, flt_fle_trans; [exact Hxt|exact Hy].
Qed.

Lemma ltb_settled t t' x y :
  fle t x -> flt x t' -> settled t t' y -> PrimFloat.ltb x y = PrimFloat.ltb t y.
Proof.
  intros Htx Hxt [Hn|[Hy|Hy]].
  - by rewrite !ltb_nan.
  - rewrite !not_flt_ltb; [done|..].
    + intros H. by eapply flt_not_fle in H.
    + intros H. eapply flt_not_fle; [exact H|]. by eapply fle_trans.
  - transitivity true; [|symmetry].
    + by eapply flt_fle_trans.
    + eapply fle_flt_trans; [exact Htx|]. by eapply flt_fle_trans.
Qed.

Lemma covers_settled t t' x i :
  fle t x -> flt x t' ->
  settled t t' (Image.ts_in i) -> settled t t' (Image.ts_out i) ->
  covers x i = covers t i.
Proof.
  intros Htx Hxt Hin Hout. unfold covers.
  by rewrite (leb_settled t t' x), (ltb_settled t t' x).
Qed.

Lemma active_image_settled t t' x images :
  fle t x -> flt x t' ->
  Forall (fun i => settled t t' (Image.ts_in i) /\ settled t t' (Image.ts_out i))
         images ->
  active_image images x = active_image images t.
Proof.
  intros Htx Hxt Hi. unfold active_image. generalize (@None string).
  induction Hi as [|i images [Hin Hout] _ IH]; intros acc; cbn; [done|].
  by rewrite IH, (covers_settled t t' x).
Qed.

Lemma revealed_at_settled t t' x a :
  fle t x -> flt x t' -> settled_stamp t t' a ->
  revealed_at a x = revealed_at a t.
Proof.
  intros Htx Hxt Ha. unfold revealed_at.
  destruct (attrib a !! "timestamp") as [v|] eqn:Hv; [|done].
  destruct (to_float v) as [r|] eqn:Hr; cbn; [|done].
  by rewrite (leb_settled t t' x) by eauto.
Qed.

Lemma make_visible_kids_settled t t' x kids :
  fle t x -> flt x t' -> Forall (settled_stamp t t') kids ->
  make_visible_kids x kids = make_visible_kids t kids.
Proof.
  intros Htx Hxt Hk. induction Hk as [|a kids Ha _ IH]; cbn; [done|].
  by rewrite IH, (revealed_at_settled t t' x).
Qed.

Lemma prune_groups_settled image t t' x kids :
  fle t x -> flt x t' ->
  Forall (fun g => tag g = svg_g -> Forall (settled_stamp t t') (children g)) kids ->
  prune_groups image x kids = prune_groups image t kids.
Proof.
  intros Htx Hxt Hk. induction Hk as [|g kids Hg _ IH]; cbn [prune_groups]; [done|].
  rewrite IH. case_decide as Ht; [|done]. unfold make_visible. cbn [children setitem].
  by rewrite (make_visible_kids_settled t t' x) by auto.
Qed.

Lemma prune_settled shapes images t t' x :
  fle t x -> flt x t' ->
  Forall (fun i => settled t t' (Image.ts_in i) /\ settled t t' (Image.ts_out i))
         images ->
  (forall g a, g ∈ children shapes -> a ∈ children g -> settled_stamp t t' a) ->
  prune shapes images x = prune shapes images t.
Proof.
  intros Htx Hxt Hi Ha. unfold prune.
  rewrite (active_image_settled t t' x) by done.
  destruct (prune_images _ (children shapes)) as [kids|] eqn:Hk; cbn; [|done].
  rewrite (prune_groups_settled _ t t' x); [done..|].
  apply prune_images_Ok in Hk as [_ Hf]. apply Forall_forall. intros g Hg Ht.
  apply Forall_forall. intros a. apply Ha.
  assert (g ∈ filter (fun e => tag e <> svg_image) kids) as Hin.
  { apply list_elem_of_filter. split; [|done]. rewrite Ht.
    intros E. by apply svg_image_not_g. }
  rewrite Hf in Hin. by apply list_elem_of_filter in Hin as [_ ?].
Qed.

(** Between two consecutive jobs there is no timestamp. *)
Lemma intervals_gap t ts job b :
  numbers ts -> increasing ts -> job ∈ intervals t ts -> b ∈ ts ->
  fle b job.1 \/ fle job.2 b.
Proof.
  unfold numbers, increasing. intros Hn Hs. revert t.
  induction Hs as [|o ts Hs IH Ho]; intros t; cbn; [by intros ?%elem_of_nil|].
  apply Forall_cons in Hn as [Hno Hn]. rewrite Forall_forall in Ho.
  intros [->|Hjob]%elem_of_cons [->|Hb]%elem_of_cons; cbn.
  - right. by apply fle_refl.
  - right. by apply flt_fle, Ho.
  - left. apply intervals_starts in Hjob as [->|Hj]%elem_of_cons;
      [by apply fle_refl|by apply flt_fle, Ho].
  - by eapply IH.
Qed.

Lemma generate_frames_queue_gap bs job b :
  increasing bs -> (forall b0, head bs = Some b0 -> fle b0 0) ->
  job ∈ generate_frames_queue bs -> b ∈ bs ->
  fle b job.1 \/ fle job.2 b.
Proof.
  unfold generate_frames_queue. intros Hs H0 Hjob Hb.
  destruct bs as [|b0 bs]; [by apply elem_of_nil in Hb|].
  cbn in Hjob. rewrite drop_0 in Hjob.
  apply StronglySorted_inv in Hs as [Hs Hb0]. rewrite Forall_forall in Hb0.
  apply elem_of_cons in Hb as [->|Hb].
  - left. apply intervals_starts in Hjob as [->|Hj]%elem_of_cons;
      [by apply H0|by apply flt_fle, Hb0].
  - eapply intervals_gap; [|done..]. apply Forall_forall. intros y Hy.
    by apply Hb0, flt_num in Hy as [_ ?].
Qed.

(** A value read by [read_timestamps] is settled for every frame job. *)
Lemma read_timestamps_settled shapes bs job e v y :
  read_timestamps shapes = Ok bs -> increasing bs ->
  (forall b0, head bs = Some b0 -> fle b0 0) ->
  job ∈ generate_frames_queue bs ->
  e ∈ descendants shapes -> v ∈ stamp_strings e -> to_float v = Ok y ->
  settled job.1 job.2 y.
Proof.
  intros Hts Hs H0 Hjob He Hv Hy. rewrite read_timestamps_floats in Hts.
  apply bind_Ok in Hts as (xs & Hxs & [= <-]).
  destruct (is_nan y) eqn:Hn; [by left|]. right.
  assert (y ∈ xs) as Hin.
  { assert (v ∈ flat_map stamp_strings (descendants shapes)) as Hvin
      by (apply elem_of_flat_map; eauto).
    apply to_floats_Ok in Hxs. apply list_elem_of_lookup in Hvin as [k Hk].
    destruct (Forall2_lookup_l _ _ _ _ _ Hxs Hk) as (y' & Hy' & Hvy).
    assert (y' = y) as -> by congruence. by apply list_elem_of_lookup_2 in Hy'. }
  destruct (sort_fromkeys_complete xs y Hin Hn) as (b & Hb & E).
  destruct (generate_frames_queue_gap _ job b Hs H0 Hjob Hb) as [H|H].
  - left. by eapply eqb_fle_l.
  - right. by eapply eqb_fle_r.
Qed.

Lemma get_at_elements tree q e : get_at tree q = Some e -> e ∈ elements tree.
Proof.
  revert tree. induction q as [|i q IH]; intros tree; cbn.
  { intros [= ->]. rewrite elements_unfold. left. }
  destruct (children tree !! i) as [c|] eqn:Hc; [|done]. cbn. intros He%IH.
  rewrite elements_unfold. right. unfold descendants. apply elem_of_flat_map.
  exists c. split; [|done]. by eapply list_elem_of_lookup_2.
Qed.

Lemma get_at_descendants tree q e :
  q <> [] -> get_at tree q = Some e -> e ∈ descendants tree.
Proof.
  destruct q as [|i q]; [done|]. intros _. cbn.
  destruct (children tree !! i) as [c|] eqn:Hc; [|done]. cbn.
  intros He%get_at_elements. unfold descendants. apply elem_of_flat_map.
  exists c. split; [|done]. by eapply list_elem_of_lookup_2.
Qed.

Lemma stamp_strings_elem e k v :
  k ∈ ["in"; "out"; "timestamp"] -> attrib e !! k = Some v -> v ∈ stamp_strings e.
Proof. intros Hk Hv. unfold stamp_strings. apply list_elem_of_omap. eauto. Qed.

(** The bounds of a recorded Asset are values that [read_timestamps]
    reads. *)
Lemma asset_of_stamps shapes q i :
  q <> [] -> asset_of shapes q = Some i ->
  exists e v_in v_out,
    e ∈ descendants shapes /\ v_in ∈ stamp_strings e /\ v_out ∈ stamp_strings e
    /\ to_float v_in = Ok (Image.ts_in i) /\ to_float v_out = Ok (Image.ts_out i).
Proof.
  intros Hq. unfold asset_of.
  destruct (get_at shapes q) as [e|] eqn:He; [|done]. cbn.
  destruct (attrib e !! xlink_href) as [href|]; [|done]. cbn.
  unfold image_record, getitem.
  destruct (attrib e !! "id") as [n|]; [|done].
  destruct (attrib e !! "in") as [v_in|] eqn:Hin; [|done]. cbn.
  destruct (to_float v_in) as [t_in|] eqn:Tin; [|done]. cbn.
  destruct (attrib e !! "out") as [v_out|] eqn:Hout; [|done]. cbn.
  destruct (to_float v_out) as [t_out|] eqn:Tout; [|done]. cbn.
  intros [= <-]. exists e, v_in, v_out. cbn. split_and!; [|..|done|done].
  - by eapply get_at_descendants.
  - eapply stamp_strings_elem; [|done]. left.
  - eapply stamp_strings_elem; [|done]. right. left.
Qed.

(** X10: what a frame shows is right for the whole of its interval. After
    the asset phase, when the timeline is increasing and does not start
    after zero, nothing changes between the start of a frame job and its
    end: the document pruned for any time of the interval is the document
    pruned for its start, with the same active asset and the same
    annotations. *)
Theorem frame_holds_for_interval (ncpu : nat) (shapes : Element)
    (outdir : gmap string string) (p : pool path fetch_store)
    (bs : list float) (job : float * float) (x : float) :
  rtc (pool_step fetch_image) (fetch_images_init ncpu shapes outdir) p ->
  read_timestamps (fs_shapes (shared p)) = Ok bs ->
  increasing bs ->
  (forall b0, head bs = Some b0 -> fle b0 0) ->
  job ∈ generate_frames_queue bs ->
  fle job.1 x -> flt x job.2 ->
  active_image (fs_images (shared p)) x = active_image (fs_images (shared p)) job.1
  /\ prune (fs_shapes (shared p)) (fs_images (shared p)) x
     = prune (fs_shapes (shared p)) (fs_images (shared p)) job.1.
Proof.
  intros Hs Hts Hinc H0 Hjob Htx Hxt.
  destruct (fetch_images_assets _ _ _ _ Hs) as [Hres Him].
  pose proof Hts as Hts0. rewrite (read_timestamps_resolved_from _ _ Hres) in Hts0.
  pose proof (pool_inv_init ncpu (fetch_images_queue [] shapes)
                (mkFetch shapes [] outdir)) as Hi0.
  pose proof (pool_inv_steps _ _ _ _ _ Hi0 Hs) as [Hperm _ _].
  assert (Forall (fun i => settled job.1 job.2 (Image.ts_in i)
                           /\ settled job.1 job.2 (Image.ts_out i))
                 (fs_images (shared p))) as Himages.
  { rewrite Him. apply Forall_forall. intros i (q & Hq & Hi)%list_elem_of_omap.
    assert (q <> []) as Hne.
    { assert (q ∈ fetch_images_queue [] shapes) as Hin
        by (rewrite Hperm, elem_of_app; by left).
      by apply fetch_images_queue_spec in Hin as (? & -> & ? & _). }
    destruct (asset_of_stamps _ _ _ Hne Hi)
      as (e & v_in & v_out & He & Hvin & Hvout & Tin & Tout).
    split; [eapply (read_timestamps_settled shapes bs job e v_in)
           |eapply (read_timestamps_settled shapes bs job e v_out)]; done. }
  split; [by eapply active_image_settled|].
  eapply prune_settled; [done..|].
  intros g a Hg Ha v r Hv Hr.
  eapply (read_timestamps_settled _ _ _ a v); [exact Hts|done..| | |done].
  - unfold descendants. apply elem_of_flat_map. exists g. split; [done|].
    rewrite elements_unfold. right. unfold descendants. apply elem_of_flat_map.
    exists a. split; [done|]. rewrite elements_unfold. left.
  - eapply stamp_strings_elem; [|done]. do 2 right. left.
Qed.

(** ** Annotations: the tokens of a style *)

Lemma append_nil_l s : EmptyString +:+ s = s.
Proof. done. Qed.

Lemma split_from_cur sep cur s :
  split_from sep cur s
  = match split_from sep EmptyString s with
    | x :: l => (cur +:+ x) :: l
    | [] => []
    end.
Proof.
  revert cur. induction s as [|a s IH]; intros cur; cbn.
  { by rewrite append_nil_r. }
  destruct (Ascii.eqb a sep); [by rewrite append_nil_r|].
  rewrite (IH (cur +:+ String a EmptyString)),
    (IH (EmptyString +:+ String a EmptyString)).
  destruct (split_from sep EmptyString s); [done|]. by rewrite !append_snoc.
Qed.

Lemma split_nonempty sep s : split sep s <> [].
Proof.
  unfold split. generalize EmptyString. induction s as [|a s IH]; intros cur; cbn;
    [done|]. destruct (Ascii.eqb a sep); [done|apply IH].
Qed.

Lemma join_cons sep x y l :
  join sep (x :: y :: l) = x +:+ sep +:+ join sep (y :: l).
Proof. done. Qed.

Lemma join_String sep a x l :
  join sep (String a x :: l) = String a (join sep (x :: l)).
Proof. destruct l; [done|]. by rewrite !join_cons. Qed.

(** [sep.join(s.split(sep))] is [s]. *)
Lemma join_split c s : join (String c EmptyString) (split c s) = s.
Proof.
  unfold split. induction s as [|a s IH]; [done|]. cbn [split_from].
  destruct (Ascii.eqb a c) eqn:E.
  - apply Ascii.eqb_eq in E as ->.
    destruct (split_from c EmptyString s) as [|x l] eqn:Hs;
      [by destruct (split_nonempty c s)|].
    by rewrite join_cons, IH.
  - rewrite split_from_cur.
    destruct (split_from c EmptyString s) as [|x l] eqn:Hs;
      [by destruct (split_nonempty c s)|].
    change ((EmptyString +:+ String a EmptyString) +:+ x) with (String a x).
    by rewrite join_String, IH.
Qed.

Lemma split_from_lacks c cur x rest :
  lacks c x = true ->
  split_from c cur (x +:+ String c rest) = (cur +:+ x) :: split_from c EmptyString rest.
Proof.
  revert cur. induction x as [|a x IH]; intros cur; cbn [lacks].
  { intros _. rewrite append_nil_l. cbn. by rewrite Ascii.eqb_refl, append_nil_r. }
  intros [Ha Hx]%andb_true_iff. rewrite append_cons. cbn [split_from].
  apply negb_true_iff in Ha. rewrite Ha, IH by done. by rewrite append_snoc.
Qed.

Lemma split_from_lacks_end c cur x :
  lacks c x = true -> split_from c cur x = [cur +:+ x].
Proof.
  revert cur. induction x as [|a x IH]; intros cur; cbn [lacks].
  { intros _. cbn. by rewrite append_nil_r. }
  intros [Ha Hx]%andb_true_iff. cbn [split_from].
  apply negb_true_iff in Ha. rewrite Ha, IH by done. by rewrite append_snoc.
Qed.

(** [sep.join(l).split(sep)] is [l], for a list that is not empty and
    whose strings have no separator inside. *)
Lemma split_join c l :
  l <> [] -> Forall (fun x => lacks c x = true) l ->
  split c (join (String c EmptyString) l) = l.
Proof.
  intros Hne Hl. unfold split. induction Hl as [|x l Hx Hl IH]; [done|].
  destruct l as [|y l].
  - cbn. by rewrite split_from_lacks_end.
  - rewrite join_cons. change (String c EmptyString +:+ ?s) with (String c s).
    rewrite split_from_lacks by done. by rewrite IH.
Qed.

Lemma lacks_app c s t : lacks c (s +:+ t) = lacks c s && lacks c t.
Proof.
  induction s as [|a s IH]; [done|]. rewrite append_cons. cbn [lacks].
  rewrite IH. by destruct (Ascii.eqb a c).
Qed.

Lemma split_from_tokens c cur s :
  lacks c cur = true -> Forall (fun x => lacks c x = true) (split_from c cur s).
Proof.
  revert cur. induction s as [|a s IH]; intros cur Hcur; cbn.
  { by constructor. }
  destruct (Ascii.eqb a c) eqn:E.
  - constructor; [done|]. by apply IH.
  - apply IH. rewrite lacks_app, Hcur. cbn. by rewrite E.
Qed.

Lemma split_tokens c s : Forall (fun x => lacks c x = true) (split c s).
Proof. by apply split_from_tokens. Qed.

(** X13: the style of a revealed annotation, as a string: the old style is
    its tokens joined by [;], the new style is the same tokens without the
    first [visibility:hidden], joined again; read back with [split], the
    new style gives these tokens, unless none is left, and then the style
    is empty. The tag, the children and the other attributes of the
    annotation stay as they are. *)
Theorem reveal_tokens (e e' : Element) :
  reveal e = Ok e' ->
  exists s s' l1 l2,
    attrib e !! "style" = Some s /\ attrib e' !! "style" = Some s'
    /\ (hidden ∉ l1)
    /\ s = join ";" (l1 ++ hidden :: l2) /\ s' = join ";" (l1 ++ l2)
    /\ (l1 ++ l2 <> [] -> split ";" s' = l1 ++ l2)
    /\ (l1 ++ l2 = [] -> s' = "")
    /\ tag e' = tag e /\ children e' = children e
    /\ (forall k, k <> "style" -> attrib e' !! k = attrib e !! k).
Proof.
  intros (s & l1 & l2 & Hs & Hsplit & Hn & ->)%reveal_Ok.
  exists s, (join ";" (l1 ++ l2)), l1, l2. cbn.
  pose proof (split_tokens ";" s) as Htok. rewrite Hsplit in Htok.
  split_and!; try done.
  - apply lookup_insert_eq.
  - by rewrite <- Hsplit, join_split.
  - intros Hne. apply split_join; [done|].
    apply Forall_app in Htok as [H1 [_ H2]%Forall_cons]. by apply Forall_app.
  - by intros ->.
  - intros k Hk. by rewrite lookup_insert_ne.
Qed.

(** ** The frames and the files of the asset phase *)

Lemma prune_images_kept image kids kids' :
  prune_images image kids = Ok kids' ->
  Forall (fun e' => tag e' = svg_image ->
            exists e, e ∈ kids /\ tag e = svg_image /\ e' = setitem e "style" "")
         kids'.
Proof.
  revert kids'. induction kids as [|k kids IH]; intros kids'; cbn [prune_images].
  { intros [= <-]. constructor. }
  assert (forall l, Forall (fun e' => tag e' = svg_image ->
                              exists e, e ∈ kids /\ tag e = svg_image
                                        /\ e' = setitem e "style" "") l ->
                    Forall (fun e' => tag e' = svg_image ->
                              exists e, e ∈ k :: kids /\ tag e = svg_image
                                        /\ e' = setitem e "style" "") l) as Hw.
  { intros l Hl. eapply Forall_impl; [exact Hl|]. intros e' H Ht.
    destruct (H Ht) as (e & ? & ? & ?). exists e. split; [by right|done]. }
  case_decide as Hk.
  - intros (i & Hi & Hp)%bind_Ok. case_decide; [|by apply Hw, IH].
    apply bind_Ok in Hp as (rest & Hrest & [= <-]).
    constructor; [|by apply Hw, IH]. intros _. exists k. split; [left|done].
  - intros (rest & Hrest & [= <-])%bind_Ok. constructor; [done|by apply Hw, IH].
Qed.

Lemma prune_image_children shapes images timestamp doc e' :
  prune shapes images timestamp = Ok doc -> e' ∈ findall svg_image doc ->
  exists e, e ∈ findall svg_image shapes /\ e' = setitem e "style" "".
Proof.
  unfold prune. intros (kids1 & H1 & H)%bind_Ok [He Ht]%elem_of_findall.
  apply bind_Ok in H as (kids2 & H2 & [= <-]). cbn in He.
  apply prune_images_kept in H1. apply prune_groups_Ok in H2 as [_ Hf2].
  rewrite Forall_forall in H1.
  assert (e' ∈ filter (fun e => tag e <> svg_g) kids2) as Hin.
  { apply list_elem_of_filter. split; [|done]. rewrite Ht. apply svg_image_not_g. }
  rewrite Hf2 in Hin. apply list_elem_of_filter in Hin as [_ Hin].
  destruct (H1 e' Hin Ht) as (e & He1 & Ht1 & ->). exists e.
  split; [by apply elem_of_findall|done].
Qed.

(** X14: the asset phase and the frame phase together: once the join of the
    asset phase has returned, every image that a frame shows refers to a
    file by a name without a directory, and the asset phase has put a
    file of that name into the output directory. *)
Theorem frame_images_stored (ncpu : nat) (shapes : Element)
    (outdir : gmap string string) (p : pool path fetch_store)
    (timestamp : float) (doc e : Element) :
  rtc (pool_step fetch_image) (fetch_images_init ncpu shapes outdir) p ->
  joined p ->
  prune (fs_shapes (shared p)) (fs_images (shared p)) timestamp = Ok doc ->
  e ∈ findall svg_image doc ->
  exists h, attrib e !! xlink_href = Some h /\ no_slash h = true
            /\ is_Some (fs_outdir (shared p) !! h).
Proof.
  intros Hs Hj Hdoc He.
  pose proof (pool_inv_init ncpu (fetch_images_queue [] shapes)
                (mkFetch shapes [] outdir)) as Hi0.
  destruct (joined_all_done _ _ _ (pool_inv_steps _ _ _ _ _ Hi0 Hs) Hj)
    as (Hd & Hc & _).
  destruct (fetch_images_fetched_so_far _ _ _ _ Hs Hc) as (Hr & Hst & _ & Hcf).
  destruct (prune_image_children _ _ _ _ _ Hdoc He) as (e1 & [He1 Ht1]%elem_of_findall & ->).
  apply list_elem_of_lookup in He1 as [i Hi].
  specialize (Hr [i]). cbn in Hr. rewrite Hi in Hr. cbn in Hr.
  destruct (children shapes !! i) as [c|] eqn:Hci; cbn in Hr; [|by inversion Hr].
  inversion Hr as [?? Hn|]; subst.
  assert (tag c = svg_image) as Htc.
  { destruct Hn as [Ht _]. rewrite Ht1 in Ht. rewrite Ht.
    case_decide; [|done].
    unfold localized. by destruct (attrib c !! xlink_href). }
  assert ([i] ∈ done_log p) as Hdone.
  { rewrite Hd. apply fetch_images_queue_spec. exists [i]. split; [done|].
    split; [done|]. exists c. cbn. by rewrite Hci. }
  rewrite decide_True in Hn by done. destruct Hn as [_ Ha].
  rewrite Forall_forall in Hcf. specialize (Hcf _ Hdone). unfold can_fetch in Hcf.
  cbn in Hcf. rewrite Hci in Hcf. cbn in Hcf.
  destruct (attrib c !! xlink_href) as [h0|] eqn:Hh0; [|done].
  exists (basename h0). cbn. rewrite lookup_insert_ne by done. rewrite Ha.
  unfold localized. rewrite Hh0. cbn. rewrite lookup_insert_eq.
  split; [done|]. split; [by apply basename_from_no_slash|].
  destruct (Hst [i] c h0 Hdone) as (? & ? & ? & im & _ & _ & _ & _ & _ & Hf);
    [by cbn; rewrite Hci|done|]. by rewrite Hf.
Qed.


(** ** One worker *)

Section OneWorker.
Context {J Store : Type}.
Variable body : J -> Store -> job_result Store.
Implicit Types (p q r : pool J Store) (jobs : list J) (s : Store).

(** With a single worker the jobs finish in the order they were put. *)
Lemma single_worker_order jobs s p :
  rtc (pool_step body) (pool_init 1 jobs s) p ->
  crash_log p = [] ->
  jobs = done_log p ++ busy p ++ workq p ++ to_put p.
Proof.
  intros Hs. pose proof (pool_inv_init 1 jobs s) as Hi0.
  apply rtc_ind_r with
    (P := fun p => crash_log p = [] ->
                   jobs = done_log p ++ busy p ++ workq p ++ to_put p) in Hs;
    [done|done|].
  intros q r Hq [a Ha] IH Hc.
  pose proof (pool_inv_steps _ _ _ _ _ Hi0 Hq) as [_ _ Hw].
  specialize (IH (exec_crash_mono _ _ _ _ Ha Hc)).
  destruct a as [| |i]; cbn in Ha.
  - destruct (to_put q) as [|j rest]; [done|]. injection Ha as <-. cbn.
    rewrite IH. by rewrite <- !(assoc_L (++)).
  - destruct (idle q) as [|k]; [done|]. destruct (workq q) as [|j w]; [done|].
    injection Ha as <-. cbn. rewrite IH.
    assert (busy q = []) as -> by (apply length_zero_iff_nil; lia). done.
  - destruct (busy q !! i) as [j|] eqn:Hj; [|done].
    assert (busy q = [j] /\ i = 0) as [Hb ->].
    { destruct (busy q) as [|j' [|??]]; cbn in Hw; [done| |lia].
      destruct i; cbn in Hj; [by injection Hj as ->|done]. }
    destruct (body j (shared q)); injection Ha as <-; cbn in *.
    + rewrite IH, Hb. cbn. by rewrite <- !(assoc_L (++)).
    + by apply app_nil in Hc as [_ ?].
Qed.

End OneWorker.

(** X15: on a machine with one processor the frames come in the order of the
    timeline: when the join of [generate_frames] returns, [self.frames]
    holds the frames of the intervals in the order they were put, and for
    an increasing timeline that does not start below zero the manifest of
    [generate_concat] is the manifest of the frames sorted by their
    start. *)
Theorem generate_frames_single_worker (shapes : Element) (images : list Image.t)
    (bs : list float) (outdir : gmap string Element)
    (p : pool (float * float) frame_store) :
  rtc (pool_step (generate_frame shapes images))
      (generate_frames_init 1 bs outdir) p ->
  joined p ->
  fr_frames (shared p) = frame_of <$> generate_frames_queue bs
  /\ (increasing bs -> (forall b0, head bs = Some b0 -> fle 0 b0) ->
      Sorted starts_no_later (fr_frames (shared p))
      /\ generate_concat (fr_frames (shared p))
         = spec_generate_concat (fr_frames (shared p))).
Proof.
  intros Hs Hj.
  pose proof (pool_inv_init 1 (generate_frames_queue bs) (mkFrames [] outdir)) as Hi0.
  destruct (joined_all_done _ _ _ (pool_inv_steps _ _ _ _ _ Hi0 Hs) Hj)
    as (_ & Hc & Hb & Hw).
  pose proof (single_worker_order _ _ _ _ Hs Hc) as Ho.
  destruct Hj as [Hp _]. rewrite Hb, Hw, Hp, !(right_id_L [] (++)) in Ho.
  assert (fr_frames (shared p) = frame_of <$> generate_frames_queue bs) as Hf
    by by rewrite (generate_frames_frames _ _ _ _ _ _ Hs), <- Ho.
  split; [done|]. intros Hinc H0.
  assert (Sorted starts_no_later (fr_frames (shared p))) as Hsorted.
  { rewrite Hf. unfold generate_frames_queue.
    apply StronglySorted_Sorted.
    eapply StronglySorted_weaken; [|apply intervals_increasing].
    - intros f g. apply flt_fle.
    - destruct bs as [|b0 bs]; cbn; [repeat constructor|]. rewrite drop_0.
      apply StronglySorted_inv in Hinc as [Hinc Hb0].
      constructor; [done|]. eapply Forall_impl; [exact Hb0|].
      intros x Hx. eapply fle_flt_trans; [|exact Hx]. by apply H0. }
  split; [done|]. unfold spec_generate_concat.
  by rewrite spec_sort_frames_sorted.
Qed.

(** X16: on a machine with one processor the Assets come in the order of the
    queue: when the join of the asset phase returns, [self.images] holds
    the Assets of the image elements in the order [fetch_images] has put
    them, so that the active asset of a time is the last image of that order
    that holds it. *)
Theorem fetch_images_single_worker (shapes : Element)
    (outdir : gmap string string) (p : pool path fetch_store) (t : float) :
  rtc (pool_step fetch_image) (fetch_images_init 1 shapes outdir) p ->
  joined p ->
  fs_images (shared p) = omap (asset_of shapes) (fetch_images_queue [] shapes)
  /\ active_image (fs_images (shared p)) t
     = Image.id <$> last (filter (fun i => covers t i = true)
                            (omap (asset_of shapes) (fetch_images_queue [] shapes))).
Proof.
  intros Hs Hj.
  pose proof (pool_inv_init 1 (fetch_images_queue [] shapes)
                (mkFetch shapes [] outdir)) as Hi0.
  destruct (joined_all_done _ _ _ (pool_inv_steps _ _ _ _ _ Hi0 Hs) Hj)
    as (_ & Hc & Hb & Hw).
  pose proof (single_worker_order _ _ _ _ Hs Hc) as Ho.
  destruct Hj as [Hp _]. rewrite Hb, Hw, Hp, !(right_id_L [] (++)) in Ho.
  destruct (fetch_images_assets _ _ _ _ Hs) as [_ Him].
  assert (fs_images (shared p)
          = omap (asset_of shapes) (fetch_images_queue [] shapes)) as Hf
    by by rewrite Him, <- Ho.
  split; [done|]. by rewrite active_image_last, Hf.
Qed.

(** ** The frame phase as a whole *)



(** ** Small inputs *)

Example basename_ex : basename "presentation/abc/slide-1.png" = "slide-1.png".
Proof. reflexivity. Qed.

Example split_ex :
split ";" "stroke:none;;visibility:hidden" = ["stroke:none"; ""; "visibility:hidden"]
/\ split ";" "" = [""].
Proof. split; reflexivity. Qed.

Example remove_join_ex :
(l ← list_remove "visibility:hidden" (split ";" "a;visibility:hidden;b;visibility:hidden");
 Ok (join ";" l)) = Ok "a;b;visibility:hidden".
Proof. vm_compute. reflexivity. Qed.

Example sort_fromkeys_ex :
sort (fromkeys [2.5; 0; 2.5; 1; (-0); 7])%float = [0; 1; 2.5; 7]%float.
Proof. vm_compute. reflexivity. Qed.

Example float_ex : PrimFloat.ltb 2.5%float 3%float = true /\ is_nan nan = true.
Proof. split; reflexivity. Qed.

Example findall_ex :
findall svg_g (mkElement "svg" ∅
   [mkElement svg_g {["class" := "canvas"]} []; mkElement svg_image ∅ []])
= [mkElement svg_g {["class" := "canvas"]} []].
Proof. vm_compute. reflexivity. Qed.

End Scrape.

Example demo_float_ex :
  demo_float "2.5" = Ok 2.5%float /\ demo_float "0.0" = Ok 0%float
  /\ demo_float "12" = Ok 12%float /\ demo_float "-3.25" = Ok (-3.25)%float
  /\ demo_float "0.75" = Ok 0.75%float
  /\ demo_float "" = Raise (ValueError "could not convert string to float")
  /\ demo_float "1.2.3" = Raise (ValueError "could not convert string to float").
Proof. vm_compute. repeat split. Qed.

Example demo_f_ex :
  demo_f 2 = "2.000000" /\ demo_f 1.5 = "1.500000" /\ demo_f 0.0625 = "0.062500"
  /\ demo_f 0x1p-21 = "0.000000" /\ demo_f (-3.25) = "-3.250000"
  /\ demo_f 0x1p-20 = "0.000001".
Proof. vm_compute. repeat split. Qed.

Example demo_str_ex :
  demo_str 2.5 = "2.5" /\ demo_str 0 = "0.0" /\ demo_str 12 = "12.0"
  /\ demo_str (-3.25) = "-3.25" /\ demo_str 0.0625 = "0.0625".
Proof. vm_compute. repeat split. Qed.

Example two_slides_queue :
  fetch_images_queue [] two_slides = [[0]; [2]].
Proof. reflexivity. Qed.

Example two_slides_timestamps :
  read_timestamps demo_float two_slides = Ok [0; 1; 3; 4; 9]%float.
Proof. vm_compute. reflexivity. Qed.

Example two_slides_jobs :
  generate_frames_queue [0; 1; 3; 4; 9]%float
  = [(0, 1); (1, 3); (3, 4); (4, 9)]%float.
Proof. reflexivity. Qed.

(** One worker resolves the assets in the order of the queue. *)
Example two_slides_fetch :
  option_map (fun p => fs_images (shared p))
    (run (fetch_image demo_float demo_get demo_base) (sequential 2)
         (fetch_images_init 1 two_slides ∅))
  = Some two_slides_images.
Proof. vm_compute. reflexivity. Qed.

Example two_slides_active :
  active_image two_slides_images 3 = Some "image1"
  /\ active_image two_slides_images 4 = Some "image2"
  /\ active_image two_slides_images 9 = None.
Proof. repeat split. Qed.

Example two_frames_manifest :
  generate_concat demo_f two_frames
  = Ok ["file 'frames/shapes0.0.png'" +:+ newline; "duration 1.000000" +:+ newline;
        "file 'frames/shapes1.0.png'" +:+ newline; "duration 2.000000" +:+ newline;
        "file 'frames/shapes1.0.png'" +:+ newline].
Proof. vm_compute. reflexivity. Qed.




(** *** The intervals (C3) *)




(** *** The timeline (C4) *)




(** *** The pool of frame jobs (C5) *)



Lemma degenerate_timeline_runs_witness :
  generate_frames_queue [] = []
  /\ joined (generate_frames_init 2 [] ∅)
  /\ (forall p,
        rtc (pool_step (generate_frame demo_float demo_str no_timestamps []))
            (generate_frames_init 2 [] ∅) p ->
        p = generate_frames_init 2 [] ∅)
  /\ generate_concat demo_f (fr_frames (shared (generate_frames_init 2 [] ∅)))
     = Raise IndexError.
Proof.
  apply (degenerate_timeline_runs demo_float demo_str demo_f 2 no_timestamps [] [] ∅).
  - reflexivity.
  - cbn. lia.
Defined.

Lemma degenerate_timeline_not_rejected :
  read_timestamps demo_float no_timestamps = Ok []
  /\ ~ spec_rejects_degenerate demo_float no_timestamps.
Proof.
  split; [reflexivity|]. intros H. specialize (H [] eq_refl). cbn in H. lia.
Qed.

Lemma make_visible_monotone_witness :
  Forall2 (shown)
    (filter (fun e => spec_kept demo_float 1 e = true) (children first_canvas))
    (children first_canvas_at_1)
  /\ children first_canvas_at_1 `sublist_of` children first_canvas_at_3.
Proof.
  apply (make_visible_monotone demo_float first_canvas
           first_canvas_at_1 first_canvas_at_3 1 3).
  - vm_compute. reflexivity.
  - vm_compute. reflexivity.
  - reflexivity.
Defined.

(** The first slide's annotation is in the frame that starts at [1.0] and
    in none that starts once the second slide is up. *)
Lemma reveal_ends_with_slide :
  ~ spec_reveal_monotone demo_float two_slides two_slides_images.
Proof.
  intros H.
  eassert (prune demo_float two_slides two_slides_images 1 = Ok _) as H1
    by (vm_compute; reflexivity).
  eassert (prune demo_float two_slides two_slides_images 4 = Ok _) as H4
    by (vm_compute; reflexivity).
  eapply (H 1%float 4%float _ _
            (setitem (annotation "draw1" "1.0" "stroke:none;visibility:hidden")
               "style" "stroke:none")) in H4; [|reflexivity|exact H1|].
  - vm_compute in H4. by apply elem_of_nil in H4.
  - vm_compute. left.
Qed.

Lemma make_visible_requires_hidden_witness :
  (reveal (annotation "draw1" "1.0" "stroke:none") = Raise (KeyError "style")
   \/ reveal (annotation "draw1" "1.0" "stroke:none")
      = Raise (ValueError "list.remove(x): x not in list"))
  /\ raises (make_visible demo_float bare_canvas 1)
  /\ (forall shapes images i ts_out st,
        bare_canvas ∈ findall svg_g shapes ->
        attrib bare_canvas !! "image" = Some i ->
        active_image images 1 = Some i ->
        exists x,
          generate_frame demo_float demo_str shapes images (1%float, ts_out) st
          = Died st x).
Proof.
  apply (make_visible_requires_hidden demo_float demo_str bare_canvas
           (annotation "draw1" "1.0" "stroke:none") 1 "1.0" 1).
  - vm_compute. left.
  - reflexivity.
  - reflexivity.
  - reflexivity.
  - vm_compute. intros H.
    apply elem_of_cons in H as [H|H]; [discriminate|]. by apply elem_of_nil in H.
Defined.


(** *** The active asset (C8) *)

Lemma active_image_last_wins_witness :
  let body := fetch_image demo_float demo_get demo_base in
  let init := fetch_images_init 2 two_slides ∅ in
  let p1 := default init (run body [Put; Put; Get; Get; Finish 0; Finish 0] init) in
  let p2 := default init (run body [Put; Put; Get; Get; Finish 1; Finish 0] init) in
  fs_images (shared p1) ≡ₚ fs_images (shared p2)
  /\ active_image (fs_images (shared p1)) 3
     = Image.id <$> last (filter (fun i => covers 3 i = true) (fs_images (shared p1)))
  /\ (length (filter (fun i => covers 3 i = true) (fs_images (shared p1))) <= 1 ->
      active_image (fs_images (shared p2)) 3 = active_image (fs_images (shared p1)) 3).
Proof.
  intros body init p1 p2.
  apply (active_image_last_wins demo_float demo_get demo_base 2 two_slides ∅ p1 p2 3).
  - apply (run_steps _ [Put; Put; Get; Get; Finish 0; Finish 0]).
    vm_compute. reflexivity.
  - apply (run_steps _ [Put; Put; Get; Get; Finish 1; Finish 0]).
    vm_compute. reflexivity.
  - split; reflexivity.
  - split; reflexivity.
Defined.

Lemma active_image_depends_on_schedule :
  ~ spec_active_deterministic demo_float demo_get demo_base 2 overlapping ∅ 4.
Proof.
  intros H.
  eassert (run (fetch_image demo_float demo_get demo_base)
               [Put; Put; Get; Get; Finish 0; Finish 0]
               (fetch_images_init 2 overlapping ∅) = Some _) as H1
    by (vm_compute; reflexivity).
  eassert (run (fetch_image demo_float demo_get demo_base)
               [Put; Put; Get; Get; Finish 1; Finish 0]
               (fetch_images_init 2 overlapping ∅) = Some _) as H2
    by (vm_compute; reflexivity).
  apply run_steps in H1, H2.
  specialize (H _ _ H1 H2 (conj eq_refl eq_refl) (conj eq_refl eq_refl)).
  vm_compute in H. discriminate.
Qed.


(** *** One fetch (C2, C9) *)



(** C2 on the code: a 404 answer is a response like any other. Its body is
    stored, the reference is rewritten and the Asset is recorded. When the
    transport raises, the reference and the Asset list stay as they were,
    but the worker is gone and the join of the asset phase never returns. *)
Theorem fetch_image_ignores_status :
  demo_get (demo_base +:+ "/presentation/abc/gone.png")
  = Ok {| status_code := 404; content := "<html>404 Not Found</html>" |}
  /\ (exists st,
        fetch_image demo_float demo_get demo_base [0] (mkFetch missing_image [] ∅)
        = Done st
        /\ (e ← get_at (fs_shapes st) [0]; attrib e !! xlink_href) = Some "gone.png"
        /\ fs_images st = [Image.mk "image1" "gone.png" 0 4]
        /\ fs_outdir st !! "gone.png" = Some "<html>404 Not Found</html>")
  /\ fetch_image demo_float demo_get demo_base [0] (mkFetch unreachable_image [] ∅)
     = Died (mkFetch unreachable_image [] ∅) ConnectionError
  /\ (forall ncpu p,
        rtc (pool_step (fetch_image demo_float demo_get demo_base))
            (fetch_images_init ncpu unreachable_image ∅) p ->
        ~ joined p).
Proof.
  split; [reflexivity|]. split; [|split; [reflexivity|]].
  - eexists. split; [vm_compute; reflexivity|]. by repeat split.
  - intros ncpu p.
    apply (doomed_job_blocks_join _ (fun s => s = mkFetch unreachable_image [] ∅)
             ncpu _ _ [0]).
    + done.
    + intros k s Hk ->. apply list_elem_of_singleton in Hk as ->. reflexivity.
    + intros s ->. by eexists _, _.
    + left.
Qed.

(** *** The asset phase on the two slides *)

Lemma fetch_images_resolved_witness :
  let body := fetch_image demo_float demo_get demo_base in
  let init := fetch_images_init 2 two_slides ∅ in
  let p := default init (run body [Put; Put; Get; Get; Finish 1; Finish 0] init) in
  fs_shapes (shared p) = resolved two_slides.
Proof.
  intros body init p.
  apply (fetch_images_resolved demo_float demo_get demo_base 2 two_slides ∅ p).
  - apply (run_steps _ [Put; Put; Get; Get; Finish 1; Finish 0]).
    vm_compute. reflexivity.
  - split; reflexivity.
Defined.



Lemma fetch_images_flat_witness :
  is_Some ((∅ : gmap string string) !! "slide-1.png") \/ no_slash "slide-1.png" = true.
Proof.
  apply (fetch_images_flat demo_float demo_get demo_base 2 two_slides ∅
           (default (fetch_images_init 2 two_slides ∅)
              (run (fetch_image demo_float demo_get demo_base)
                   [Put; Put; Get; Get; Finish 1; Finish 0]
                   (fetch_images_init 2 two_slides ∅)))).
  - apply (run_steps _ [Put; Put; Get; Get; Finish 1; Finish 0]).
    vm_compute. reflexivity.
  - vm_compute. by eexists.
Defined.

Lemma read_timestamps_after_fetch_witness :
  let body := fetch_image demo_float demo_get demo_base in
  let init := fetch_images_init 2 two_slides ∅ in
  let p := default init (run body [Put; Put; Get; Get; Finish 1; Finish 0] init) in
  read_timestamps demo_float (fs_shapes (shared p))
  = read_timestamps demo_float two_slides.
Proof.
  intros body init p.
  apply (read_timestamps_after_fetch demo_float demo_get demo_base 2 two_slides ∅ p).
  apply (run_steps _ [Put; Put; Get; Get; Finish 1; Finish 0]).
  vm_compute. reflexivity.
Defined.

Lemma fetch_images_single_worker_witness :
  let body := fetch_image demo_float demo_get demo_base in
  let init := fetch_images_init 1 two_slides ∅ in
  let p := default init (run body (sequential 2) init) in
  fs_images (shared p)
  = omap (asset_of demo_float two_slides) (fetch_images_queue [] two_slides)
  /\ active_image (fs_images (shared p)) 3
     = Image.id <$> last (filter (fun i => covers 3 i = true)
                            (omap (asset_of demo_float two_slides)
                               (fetch_images_queue [] two_slides))).
Proof.
  intros body init p.
  apply (fetch_images_single_worker demo_float demo_get demo_base two_slides ∅ p 3).
  - apply (run_steps _ (sequential 2)). vm_compute. reflexivity.
  - split; reflexivity.
Defined.


(** *** The frames of the two slides *)

Lemma prune_active_only_witness :
  let doc := match prune demo_float two_slides two_slides_images 1 with
             | Ok d => d
             | Raise _ => two_slides
             end in
  same_node two_slides doc
  /\ (forall e, e ∈ findall svg_image doc ->
        exists i, active_image two_slides_images 1 = Some i
                  /\ attrib e !! "id" = Some i /\ attrib e !! "style" = Some "")
  /\ (forall g, g ∈ findall svg_g doc ->
        exists i, active_image two_slides_images 1 = Some i
                  /\ attrib g !! "class" = Some "canvas"
                  /\ attrib g !! "image" = Some i
                  /\ attrib g !! "display" = Some "inherit")
  /\ backdrop doc = backdrop two_slides
  /\ (active_image two_slides_images 1 = None -> children doc = backdrop two_slides).
Proof.
  intros doc.
  apply (prune_active_only demo_float two_slides two_slides_images 1 doc).
  vm_compute. reflexivity.
Defined.


Lemma frame_holds_for_interval_witness :
  let body := fetch_image demo_float demo_get demo_base in
  let init := fetch_images_init 2 two_slides ∅ in
  let p := default init (run body [Put; Put; Get; Get; Finish 1; Finish 0] init) in
  active_image (fs_images (shared p)) 2 = active_image (fs_images (shared p)) 1
  /\ prune demo_float (fs_shapes (shared p)) (fs_images (shared p)) 2
     = prune demo_float (fs_shapes (shared p)) (fs_images (shared p)) 1.
Proof.
  intros body init p.
  apply (frame_holds_for_interval demo_float demo_get demo_base 2 two_slides ∅ p
           [0; 1; 3; 4; 9]%float (1, 3)%float 2).
  - apply (run_steps _ [Put; Put; Get; Get; Finish 1; Finish 0]).
    vm_compute. reflexivity.
  - vm_compute. reflexivity.
  - repeat constructor.
  - intros b0 [= <-]. reflexivity.
  - right. left.
  - reflexivity.
  - reflexivity.
Defined.

Lemma frame_images_stored_witness :
  let body := fetch_image demo_float demo_get demo_base in
  let init := fetch_images_init 2 two_slides ∅ in
  let p := default init (run body [Put; Put; Get; Get; Finish 1; Finish 0] init) in
  let doc := match prune demo_float (fs_shapes (shared p)) (fs_images (shared p)) 1 with
             | Ok d => d
             | Raise _ => two_slides
             end in
  let e := default two_slides (head (findall svg_image doc)) in
  exists h, attrib e !! xlink_href = Some h /\ no_slash h = true
            /\ is_Some (fs_outdir (shared p) !! h).
Proof.
  intros body init p doc e.
  apply (frame_images_stored demo_float demo_get demo_base 2 two_slides ∅ p 1 doc e).
  - apply (run_steps _ [Put; Put; Get; Get; Finish 1; Finish 0]).
    vm_compute. reflexivity.
  - split; reflexivity.
  - vm_compute. reflexivity.
  - vm_compute. left.
Defined.


Lemma generate_concat_after_frames_witness :
  let body := generate_frame demo_float demo_str two_slides two_slides_images in
  let init := generate_frames_init 2 [0; 1; 3; 4; 9]%float ∅ in
  let p := default init
             (run body [Put; Put; Put; Put; Get; Get; Finish 1; Finish 0;
                        Get; Get; Finish 1; Finish 0] init) in
  exists lines,
    generate_concat demo_f (fr_frames (shared p)) = Ok lines
    /\ length lines = 2 * (length [0; 1; 3; 4; 9]%float - 1) + 1
    /\ forall job, job ∈ generate_frames_queue [0; 1; 3; 4; 9]%float ->
         exists i,
           lines !! (2 * i) = Some (file_line (frame_png demo_str job.1))
           /\ lines !! (2 * i + 1)
              = Some (duration_line demo_f (PrimFloat.sub job.2 job.1)).
Proof.
  intros body init p.
  apply (generate_concat_after_frames demo_float demo_str demo_f 2 two_slides
           two_slides_images [0; 1; 3; 4; 9]%float ∅ p).
  - apply (run_steps _ [Put; Put; Put; Put; Get; Get; Finish 1; Finish 0;
                        Get; Get; Finish 1; Finish 0]).
    vm_compute. reflexivity.
  - split; reflexivity.
  - cbn. lia.
Defined.

Lemma generate_frames_single_worker_witness :
  let body := generate_frame demo_float demo_str two_slides two_slides_images in
  let init := generate_frames_init 1 [0; 1; 3; 4; 9]%float ∅ in
  let p := default init (run body (sequential 4) init) in
  fr_frames (shared p) = frame_of demo_str <$> generate_frames_queue [0; 1; 3; 4; 9]%float
  /\ (increasing [0; 1; 3; 4; 9]%float ->
      (forall b0, head [0; 1; 3; 4; 9]%float = Some b0 -> fle 0 b0) ->
      Sorted starts_no_later (fr_frames (shared p))
      /\ generate_concat demo_f (fr_frames (shared p))
         = spec_generate_concat demo_f (fr_frames (shared p))).
Proof.
  intros body init p.
  apply (generate_frames_single_worker demo_float demo_str demo_f two_slides
           two_slides_images [0; 1; 3; 4; 9]%float ∅ p).
  - apply (run_steps _ (sequential 4)). vm_compute. reflexivity.
  - split; reflexivity.
Defined.

Lemma reveal_tokens_witness :
  exists s s' l1 l2,
    attrib (annotation "draw1" "1.0" "stroke:none;visibility:hidden") !! "style" = Some s
    /\ attrib (setitem (annotation "draw1" "1.0" "stroke:none;visibility:hidden")
                 "style" "stroke:none") !! "style" = Some s'
    /\ (hidden ∉ l1)
    /\ s = join ";" (l1 ++ hidden :: l2) /\ s' = join ";" (l1 ++ l2)
    /\ (l1 ++ l2 <> [] -> split ";" s' = l1 ++ l2)
    /\ (l1 ++ l2 = [] -> s' = "")
    /\ tag (setitem (annotation "draw1" "1.0" "stroke:none;visibility:hidden")
              "style" "stroke:none")
       = tag (annotation "draw1" "1.0" "stroke:none;visibility:hidden")
    /\ children (setitem (annotation "draw1" "1.0" "stroke:none;visibility:hidden")
                   "style" "stroke:none")
       = children (annotation "draw1" "1.0" "stroke:none;visibility:hidden")
    /\ (forall k, k <> "style" ->
          attrib (setitem (annotation "draw1" "1.0" "stroke:none;visibility:hidden")
                    "style" "stroke:none") !! k
          = attrib (annotation "draw1" "1.0" "stroke:none;visibility:hidden") !! k).
Proof.
  apply (reveal_tokens (annotation "draw1" "1.0" "stroke:none;visibility:hidden")
           (setitem (annotation "draw1" "1.0" "stroke:none;visibility:hidden")
              "style" "stroke:none")).
  vm_compute. reflexivity.
Defined.

